(** * Flow control of quic-go: the flow controller of [flowcontrol/flow_controller.go]

    A shallow embedding of the per-stream and per-connection flow controller,
    and the properties of its window accounting.

    Conventions.
    - [protocol.ByteCount] is Go's [uint64]: a [Z] in [0, 2^64), every
      addition, subtraction and multiplication reduced modulo [2^64].
    - [time.Duration] is Go's [int64] count of nanoseconds; [time.Time] is an
      instant, counted in nanoseconds from the zero instant.
    - Methods with a pointer receiver are computations of the monad [M] over a
      [Machine]: the receiver together with the part of the world the methods
      read (the clock, the shared RTT statistics) or write (the debug log). *)

From Stdlib Require Import ZArith List Lia Bool String.
Import ListNotations.

Local Open Scope Z_scope.

(** ** Package [protocol]: byte counts and stream identifiers *)

Module protocol.

Definition ByteCount := Z.
Definition StreamID := Z.

Definition modulus : Z := 2 ^ 64.

Definition is_uint64 (z : Z) : Prop := 0 <= z < modulus.

(** [a + b], [a - b] and [a * b] on [uint64]. *)
Definition add64 (a b : ByteCount) : ByteCount := (a + b) mod modulus.
Definition sub64 (a b : ByteCount) : ByteCount := (a - b) mod modulus.
Definition mul64 (a b : ByteCount) : ByteCount := (a * b) mod modulus.

End protocol.

(** ** Package [time]: instants and durations *)

Module time.

Definition Time := Z.
Definition Duration := Z.

Definition minDuration : Duration := - 2 ^ 63.
Definition maxDuration : Duration := 2 ^ 63 - 1.

(** [t.IsZero()]. *)
Definition IsZero (t : Time) : bool := t =? 0.

(** [t.Sub(u)]: the duration [t - u], saturated to the range of [Duration]. *)
Definition Sub (t u : Time) : Duration :=
  let d := t - u in
  if d <? minDuration then minDuration
  else if maxDuration <? d then maxDuration
  else d.

(** [a * b] on [int64]. *)
Definition mul (a b : Duration) : Duration :=
  (a * b + 2 ^ 63) mod 2 ^ 64 - 2 ^ 63.

End time.

(** ** Package [utils] *)

Module utils.

(** Modelled from the spec: [utils.MinByteCount], of which only the call is
    in the source; "clamped to maxReceiveWindowIncrement":
    [min(2 x receiveWindowIncrement, maxReceiveWindowIncrement)]. *)
Definition MinByteCount (a b : protocol.ByteCount) : protocol.ByteCount :=
  if a <? b then a else b.

(** One call of [utils.Debugf]: the format and its arguments. *)
Definition LogLine : Type := string * list Z.

End utils.

(** ** Package [congestion]: the RTT statistics *)

Module congestion.

(** Modelled from the spec: the RTT estimator, of which only the call
    [SmoothedRTT()] is in the source; "smoothedRTT() -> Duration, returning
    zero before any sample exists". *)
Record RTTStats := { smoothedRTT : time.Duration }.

Definition SmoothedRTT (r : RTTStats) : time.Duration := smoothedRTT r.

End congestion.

(** ** Package [handshake]: the negotiated connection parameters *)

Module handshake.

(** The interface [ConnectionParametersManager], with the six getters the
    flow controller calls.  They return [protocol.ByteCount]s, so their
    results are in the range of [uint64]. *)
Class ConnectionParametersManager (T : Type) := {
  GetSendStreamFlowControlWindow : T -> protocol.ByteCount;
  GetSendConnectionFlowControlWindow : T -> protocol.ByteCount;
  GetReceiveStreamFlowControlWindow : T -> protocol.ByteCount;
  GetMaxReceiveStreamFlowControlWindow : T -> protocol.ByteCount;
  GetReceiveConnectionFlowControlWindow : T -> protocol.ByteCount;
  GetMaxReceiveConnectionFlowControlWindow : T -> protocol.ByteCount;
  SendStream_range : forall t, protocol.is_uint64 (GetSendStreamFlowControlWindow t);
  SendConnection_range : forall t, protocol.is_uint64 (GetSendConnectionFlowControlWindow t);
  ReceiveStream_range : forall t, protocol.is_uint64 (GetReceiveStreamFlowControlWindow t);
  MaxReceiveStream_range : forall t, protocol.is_uint64 (GetMaxReceiveStreamFlowControlWindow t);
  ReceiveConnection_range : forall t, protocol.is_uint64 (GetReceiveConnectionFlowControlWindow t);
  MaxReceiveConnection_range : forall t, protocol.is_uint64 (GetMaxReceiveConnectionFlowControlWindow t)
  }.

(** A parameters manager with fixed values, as the tests of the package use:
    each getter returns its field, converted to [uint64]. *)
Record mockConnectionParametersManager := {
  sendStreamFlowControlWindow : Z;
  sendConnectionFlowControlWindow : Z;
  receiveStreamFlowControlWindow : Z;
  maxReceiveStreamFlowControlWindow : Z;
  receiveConnectionFlowControlWindow : Z;
  maxReceiveConnectionFlowControlWindow : Z
  }.

End handshake.

(** The conversion [uint64(z)] lands in the range of [uint64]. *)
Definition uint64_conversion (z : Z) : protocol.is_uint64 (z mod protocol.modulus) :=
  Z.mod_pos_bound z protocol.modulus eq_refl.

#[export] Instance mockConnectionParametersManager_CPM :
  handshake.ConnectionParametersManager handshake.mockConnectionParametersManager := {|
  handshake.GetSendStreamFlowControlWindow m :=
  handshake.sendStreamFlowControlWindow m mod protocol.modulus;
  handshake.GetSendConnectionFlowControlWindow m :=
  handshake.sendConnectionFlowControlWindow m mod protocol.modulus;
  handshake.GetReceiveStreamFlowControlWindow m :=
  handshake.receiveStreamFlowControlWindow m mod protocol.modulus;
  handshake.GetMaxReceiveStreamFlowControlWindow m :=
  handshake.maxReceiveStreamFlowControlWindow m mod protocol.modulus;
  handshake.GetReceiveConnectionFlowControlWindow m :=
  handshake.receiveConnectionFlowControlWindow m mod protocol.modulus;
  handshake.GetMaxReceiveConnectionFlowControlWindow m :=
  handshake.maxReceiveConnectionFlowControlWindow m mod protocol.modulus;
  handshake.SendStream_range m := uint64_conversion _;
  handshake.SendConnection_range m := uint64_conversion _;
  handshake.ReceiveStream_range m := uint64_conversion _;
  handshake.MaxReceiveStream_range m := uint64_conversion _;
  handshake.ReceiveConnection_range m := uint64_conversion _;
  handshake.MaxReceiveConnection_range m := uint64_conversion _
|}.

(** ** Package [flowcontrol] *)

Module flowcontrol.

Import protocol.

Section FlowController.

(** The type of the connection parameters manager handed to the constructor. *)
Context {CPM : Type} `{handshake.ConnectionParametersManager CPM}.

(** The struct [flowController].  [rttStats] is a pointer: the address of
    statistics that live in the world and are shared by the controllers of a
    connection. *)
Record flowController := {
  streamID : StreamID;
  connectionParameters : CPM;
  rttStats : nat;
  bytesSent : ByteCount;
  sendWindow : ByteCount;
  lastWindowUpdateTime : time.Time;
  bytesRead : ByteCount;
  highestReceived : ByteCount;
  receiveWindow : ByteCount;
  receiveWindowIncrement : ByteCount;
  maxReceiveWindowIncrement : ByteCount
}.

(** Assignments to the fields the methods write. *)
Definition set_bytesSent (v : ByteCount) (c : flowController) : flowController :=
  {| streamID := streamID c; connectionParameters := connectionParameters c;
     rttStats := rttStats c; bytesSent := v; sendWindow := sendWindow c;
     lastWindowUpdateTime := lastWindowUpdateTime c; bytesRead := bytesRead c;
     highestReceived := highestReceived c; receiveWindow := receiveWindow c;
     receiveWindowIncrement := receiveWindowIncrement c;
     maxReceiveWindowIncrement := maxReceiveWindowIncrement c |}.

Definition set_sendWindow (v : ByteCount) (c : flowController) : flowController :=
  {| streamID := streamID c; connectionParameters := connectionParameters c;
     rttStats := rttStats c; bytesSent := bytesSent c; sendWindow := v;
     lastWindowUpdateTime := lastWindowUpdateTime c; bytesRead := bytesRead c;
     highestReceived := highestReceived c; receiveWindow := receiveWindow c;
     receiveWindowIncrement := receiveWindowIncrement c;
     maxReceiveWindowIncrement := maxReceiveWindowIncrement c |}.

Definition set_lastWindowUpdateTime (v : time.Time) (c : flowController) : flowController :=
  {| streamID := streamID c; connectionParameters := connectionParameters c;
     rttStats := rttStats c; bytesSent := bytesSent c; sendWindow := sendWindow c;
     lastWindowUpdateTime := v; bytesRead := bytesRead c;
     highestReceived := highestReceived c; receiveWindow := receiveWindow c;
     receiveWindowIncrement := receiveWindowIncrement c;
     maxReceiveWindowIncrement := maxReceiveWindowIncrement c |}.

Definition set_bytesRead (v : ByteCount) (c : flowController) : flowController :=
  {| streamID := streamID c; connectionParameters := connectionParameters c;
     rttStats := rttStats c; bytesSent := bytesSent c; sendWindow := sendWindow c;
     lastWindowUpdateTime := lastWindowUpdateTime c; bytesRead := v;
     highestReceived := highestReceived c; receiveWindow := receiveWindow c;
     receiveWindowIncrement := receiveWindowIncrement c;
     maxReceiveWindowIncrement := maxReceiveWindowIncrement c |}.

Definition set_highestReceived (v : ByteCount) (c : flowController) : flowController :=
  {| streamID := streamID c; connectionParameters := connectionParameters c;
     rttStats := rttStats c; bytesSent := bytesSent c; sendWindow := sendWindow c;
     lastWindowUpdateTime := lastWindowUpdateTime c; bytesRead := bytesRead c;
     highestReceived := v; receiveWindow := receiveWindow c;
     receiveWindowIncrement := receiveWindowIncrement c;
     maxReceiveWindowIncrement := maxReceiveWindowIncrement c |}.

Definition set_receiveWindow (v : ByteCount) (c : flowController) : flowController :=
  {| streamID := streamID c; connectionParameters := connectionParameters c;
     rttStats := rttStats c; bytesSent := bytesSent c; sendWindow := sendWindow c;
     lastWindowUpdateTime := lastWindowUpdateTime c; bytesRead := bytesRead c;
     highestReceived := highestReceived c; receiveWindow := v;
     receiveWindowIncrement := receiveWindowIncrement c;
     maxReceiveWindowIncrement := maxReceiveWindowIncrement c |}.

Definition set_receiveWindowIncrement (v : ByteCount) (c : flowController) : flowController :=
  {| streamID := streamID c; connectionParameters := connectionParameters c;
     rttStats := rttStats c; bytesSent := bytesSent c; sendWindow := sendWindow c;
     lastWindowUpdateTime := lastWindowUpdateTime c; bytesRead := bytesRead c;
     highestReceived := highestReceived c; receiveWindow := receiveWindow c;
     receiveWindowIncrement := v;
     maxReceiveWindowIncrement := maxReceiveWindowIncrement c |}.

Definition set_maxReceiveWindowIncrement (v : ByteCount) (c : flowController) : flowController :=
  {| streamID := streamID c; connectionParameters := connectionParameters c;
     rttStats := rttStats c; bytesSent := bytesSent c; sendWindow := sendWindow c;
     lastWindowUpdateTime := lastWindowUpdateTime c; bytesRead := bytesRead c;
     highestReceived := highestReceived c; receiveWindow := receiveWindow c;
     receiveWindowIncrement := receiveWindowIncrement c;
     maxReceiveWindowIncrement := v |}.

(** What a method reads and writes besides its receiver: [clock] gives the
    successive results of [time.Now()] and [ticks] counts the readings taken
    so far; [heap] is the content of the RTT statistics at each address;
    [debugLog] collects the calls of [utils.Debugf], latest first. *)
Record World := {
  clock : nat -> time.Time;
  ticks : nat;
  heap : nat -> congestion.RTTStats;
  debugLog : list utils.LogLine
}.

Record Machine := { self : flowController; world : World }.

(** The monad of the methods. *)
Definition M (A : Type) : Type := Machine -> A * Machine.

Definition ret {A} (a : A) : M A := fun m => (a, m).

Definition bind {A B} (x : M A) (k : A -> M B) : M B :=
  fun m => let (a, m') := x m in k a m'.

Definition this : M flowController := fun m => (self m, m).

Definition assign (f : flowController -> flowController) : M unit :=
  fun m => (tt, {| self := f (self m); world := world m |}).

(** [time.Now()]: the next reading of the clock. *)
Definition time_Now : M time.Time :=
  fun m =>
    let w := world m in
    (clock w (ticks w),
     {| self := self m;
        world := {| clock := clock w; ticks := S (ticks w);
                    heap := heap w; debugLog := debugLog w |} |}).

(** [r.SmoothedRTT()] on the statistics at address [r]. *)
Definition rttStats_SmoothedRTT (r : nat) : M time.Duration :=
  fun m => (congestion.SmoothedRTT (heap (world m) r), m).

(** [utils.Debugf(format, args...)]. *)
Definition utils_Debugf (format : string) (args : list Z) : M unit :=
  fun m =>
    let w := world m in
    (tt,
     {| self := self m;
        world := {| clock := clock w; ticks := ticks w; heap := heap w;
                    debugLog := (format, args) :: debugLog w |} |}).

End FlowController.

Arguments flowController CPM : clear implicits.
Arguments Machine CPM : clear implicits.
Arguments M CPM A : clear implicits.

Declare Scope fc_scope.
Delimit Scope fc_scope with fc.
Notation "x <- c1 ;; c2" := (bind c1 (fun x => c2))
  (at level 61, c1 at next level, right associativity) : fc_scope.
Notation "c1 ;; c2" := (bind c1 (fun _ => c2))
  (at level 61, right associativity) : fc_scope.

(** The machine a computation leaves. *)
Definition after {CPM A} (x : M CPM A) (m : Machine CPM) : Machine CPM := snd (x m).

Section Methods.

Context {CPM : Type} `{handshake.ConnectionParametersManager CPM}.

Local Open Scope fc_scope.

(** [newFlowController]: the fields the literal does not name are zero. *)
Definition newFlowController (streamID : StreamID) (connectionParameters : CPM)
    (rttStats : nat) : flowController CPM :=
  let fc := {| streamID := streamID; connectionParameters := connectionParameters;
               rttStats := rttStats; bytesSent := 0; sendWindow := 0;
               lastWindowUpdateTime := 0; bytesRead := 0; highestReceived := 0;
               receiveWindow := 0; receiveWindowIncrement := 0;
               maxReceiveWindowIncrement := 0 |} in
  if streamID =? 0 then
    let fc := set_receiveWindow
                (handshake.GetReceiveConnectionFlowControlWindow connectionParameters) fc in
    let fc := set_receiveWindowIncrement (receiveWindow fc) fc in
    set_maxReceiveWindowIncrement
      (handshake.GetMaxReceiveConnectionFlowControlWindow connectionParameters) fc
  else
    let fc := set_receiveWindow
                (handshake.GetReceiveStreamFlowControlWindow connectionParameters) fc in
    let fc := set_receiveWindowIncrement (receiveWindow fc) fc in
    set_maxReceiveWindowIncrement
      (handshake.GetMaxReceiveStreamFlowControlWindow connectionParameters) fc.

(** [getSendWindow]. *)
Definition getSendWindow : M CPM ByteCount :=
  c <- this ;;
  if sendWindow c =? 0 then
    if streamID c =? 0 then
      ret (handshake.GetSendConnectionFlowControlWindow (connectionParameters c))
    else
      ret (handshake.GetSendStreamFlowControlWindow (connectionParameters c))
  else ret (sendWindow c).

(** [AddBytesSent]. *)
Definition AddBytesSent (n : ByteCount) : M CPM unit :=
  assign (fun c => set_bytesSent (add64 (bytesSent c) n) c).

(** [UpdateSendWindow]. *)
Definition UpdateSendWindow (newOffset : ByteCount) : M CPM bool :=
  c <- this ;;
  if newOffset >? sendWindow c then
    assign (set_sendWindow newOffset) ;;
    ret true
  else ret false.

(** [SendWindowSize]. *)
Definition SendWindowSize : M CPM ByteCount :=
  sendWindow <- getSendWindow ;;
  c <- this ;;
  if bytesSent c >? sendWindow then ret 0
  else ret (sub64 sendWindow (bytesSent c)).

(** [SendWindowOffset]. *)
Definition SendWindowOffset : M CPM ByteCount := getSendWindow.

(** The error values of the package. *)
Inductive error := ErrReceivedSmallerByteOffset.

(** [UpdateHighestReceived]; the Go result [(n, nil)] is [(n, None)]. *)
Definition UpdateHighestReceived (byteOffset : ByteCount) : M CPM (ByteCount * option error) :=
  c <- this ;;
  if byteOffset =? highestReceived c then ret (0, None)
  else if byteOffset >? highestReceived c then
    let increment := sub64 byteOffset (highestReceived c) in
    assign (set_highestReceived byteOffset) ;;
    ret (increment, None)
  else ret (0, Some ErrReceivedSmallerByteOffset).

(** [IncrementHighestReceived]. *)
Definition IncrementHighestReceived (increment : ByteCount) : M CPM unit :=
  assign (fun c => set_highestReceived (add64 (highestReceived c) increment) c).

(** [AddBytesRead]. *)
Definition AddBytesRead (n : ByteCount) : M CPM unit :=
  assign (fun c => set_bytesRead (add64 (bytesRead c) n) c).

(** [maybeAdjustWindowIncrement]. *)
Definition maybeAdjustWindowIncrement : M CPM unit :=
  c <- this ;;
  if time.IsZero (lastWindowUpdateTime c) then ret tt
  else
    rtt <- rttStats_SmoothedRTT (rttStats c) ;;
    if rtt =? 0 then ret tt
    else
      now <- time_Now ;;
      let timeSinceLastWindowUpdate := time.Sub now (lastWindowUpdateTime c) in
      if timeSinceLastWindowUpdate >=? time.mul 2 rtt then ret tt
      else
        let oldWindowSize := receiveWindowIncrement c in
        assign (fun c => set_receiveWindowIncrement
                  (utils.MinByteCount (mul64 2 (receiveWindowIncrement c))
                                      (maxReceiveWindowIncrement c)) c) ;;
        c <- this ;;
        if oldWindowSize <? receiveWindowIncrement c then
          let newWindowSize := receiveWindowIncrement c / Z.shiftl 1 10 in
          if streamID c =? 0 then
            utils_Debugf
              "Increasing receive flow control window for the connection to %d kB"
              [newWindowSize]
          else
            utils_Debugf
              "Increasing receive flow control window increment for stream %d to %d kB"
              [streamID c; newWindowSize]
        else ret tt.

(** [MaybeUpdateWindow]. *)
Definition MaybeUpdateWindow : M CPM (bool * ByteCount) :=
  c <- this ;;
  let diff := sub64 (receiveWindow c) (bytesRead c) in
  if diff <? receiveWindowIncrement c / 2 then
    maybeAdjustWindowIncrement ;;
    now <- time_Now ;;
    assign (set_lastWindowUpdateTime now) ;;
    assign (fun c => set_receiveWindow (add64 (bytesRead c) (receiveWindowIncrement c)) c) ;;
    c <- this ;;
    ret (true, receiveWindow c)
  else ret (false, 0).

(** [CheckFlowControlViolation]. *)
Definition CheckFlowControlViolation : M CPM bool :=
  c <- this ;;
  if highestReceived c >? receiveWindow c then ret true
  else ret false.

(** *** The interface, as calls and replies *)

(** A call of one of the nine methods of the interface. *)
Inductive Call :=
| CallAddBytesSent (n : ByteCount)
| CallUpdateSendWindow (newOffset : ByteCount)
| CallSendWindowSize
| CallSendWindowOffset
| CallUpdateHighestReceived (byteOffset : ByteCount)
| CallIncrementHighestReceived (increment : ByteCount)
| CallAddBytesRead (n : ByteCount)
| CallMaybeUpdateWindow
| CallCheckFlowControlViolation.

Inductive Reply :=
| ReplyNone
| ReplyBool (b : bool)
| ReplyByteCount (n : ByteCount)
| ReplyIncrement (n : ByteCount) (err : option error)
| ReplyWindowUpdate (due : bool) (offset : ByteCount).

Definition call (o : Call) : M CPM Reply :=
  match o with
  | CallAddBytesSent n => AddBytesSent n ;; ret ReplyNone
  | CallUpdateSendWindow newOffset => b <- UpdateSendWindow newOffset ;; ret (ReplyBool b)
  | CallSendWindowSize => n <- SendWindowSize ;; ret (ReplyByteCount n)
  | CallSendWindowOffset => n <- SendWindowOffset ;; ret (ReplyByteCount n)
  | CallUpdateHighestReceived byteOffset =>
      r <- UpdateHighestReceived byteOffset ;; ret (ReplyIncrement (fst r) (snd r))
  | CallIncrementHighestReceived increment =>
      IncrementHighestReceived increment ;; ret ReplyNone
  | CallAddBytesRead n => AddBytesRead n ;; ret ReplyNone
  | CallMaybeUpdateWindow =>
      r <- MaybeUpdateWindow ;; ret (ReplyWindowUpdate (fst r) (snd r))
  | CallCheckFlowControlViolation => b <- CheckFlowControlViolation ;; ret (ReplyBool b)
  end.

(** The controller after one call made in the world [w]. *)
Definition step (w : World) (o : Call) (c : flowController CPM) : flowController CPM :=
  self (snd (call o {| self := c; world := w |})).

(** The controller after a sequence of calls, each made in a world of its
    own: between two calls the clock and the RTT statistics change freely. *)
Fixpoint run (calls : list (World * Call)) (c : flowController CPM) : flowController CPM :=
  match calls with
  | [] => c
  | (w, o) :: calls => run calls (step w o c)
  end.

(** The successive calls [UpdateSendWindow(o1)], ..., [UpdateSendWindow(on)]:
    the results, and the machine they leave. *)
Fixpoint UpdateSendWindow_each (offsets : list ByteCount) (m : Machine CPM)
    : list bool * Machine CPM :=
  match offsets with
  | [] => ([], m)
  | o :: offsets =>
      let (b, m') := UpdateSendWindow o m in
      let (bs, m'') := UpdateSendWindow_each offsets m' in
      (b :: bs, m'')
  end.

(** The parameters of a scope: the connection's for stream 0, the stream's
    otherwise. *)
Definition initialWindow (streamID : StreamID) (p : CPM) : ByteCount :=
  if streamID =? 0 then handshake.GetReceiveConnectionFlowControlWindow p
  else handshake.GetReceiveStreamFlowControlWindow p.

Definition maxWindowIncrement (streamID : StreamID) (p : CPM) : ByteCount :=
  if streamID =? 0 then handshake.GetMaxReceiveConnectionFlowControlWindow p
  else handshake.GetMaxReceiveStreamFlowControlWindow p.

Definition initialSendWindow (streamID : StreamID) (p : CPM) : ByteCount :=
  if streamID =? 0 then handshake.GetSendConnectionFlowControlWindow p
  else handshake.GetSendStreamFlowControlWindow p.

(** The effective send window, as the specification words it: [sendWindow]
    when it is not zero, else the negotiated send window of the scope. *)
Definition effectiveSendWindow (c : flowController CPM) : ByteCount :=
  if sendWindow c =? 0 then initialSendWindow (streamID c) (connectionParameters c)
  else sendWindow c.

(** *** The notions the properties are stated with *)

(** The step grows the increment exactly when there was an earlier update,
    the smoothed RTT is not zero, and less than [2 * rtt] elapsed between
    that update and the next reading of the clock. *)
Definition updates_too_often (m : Machine CPM) : bool :=
  let c := self m in
  let rtt := congestion.SmoothedRTT (heap (world m) (rttStats c)) in
  let elapsed := time.Sub (clock (world m) (ticks (world m))) (lastWindowUpdateTime c) in
  negb (time.IsZero (lastWindowUpdateTime c)) && negb (rtt =? 0)
  && negb (elapsed >=? time.mul 2 rtt).

(** The increment the step leaves. *)
Definition adjusted_increment (m : Machine CPM) : ByteCount :=
  receiveWindowIncrement (self (after maybeAdjustWindowIncrement m)).

(** The largest of the offsets, 0 when there is none. *)
Definition max_offset (offsets : list ByteCount) : ByteCount :=
  fold_right Z.max 0 offsets.

(** The successive calls [UpdateHighestReceived(o1)], ...,
    [UpdateHighestReceived(on)] on a stream's controller: the results, and the
    machine they leave. *)
Fixpoint UpdateHighestReceived_each (offsets : list ByteCount) (m : Machine CPM)
    : list (ByteCount * option error) * Machine CPM :=
  match offsets with
  | [] => ([], m)
  | o :: offsets =>
      let (r, m') := UpdateHighestReceived o m in
      let (rs, m'') := UpdateHighestReceived_each offsets m' in
      (r :: rs, m'')
  end.

(** The successive calls [IncrementHighestReceived(i1)], ...,
    [IncrementHighestReceived(in)] on the connection's controller. *)
Fixpoint IncrementHighestReceived_each (increments : list ByteCount) (m : Machine CPM)
    : Machine CPM :=
  match increments with
  | [] => m
  | i :: increments =>
      IncrementHighestReceived_each increments (after (IncrementHighestReceived i) m)
  end.

(** The sum of byte counts, as an integer. *)
Definition total (counts : list ByteCount) : Z := fold_right Z.add 0 counts.

(** The byte counts of the receive side are in the range of [uint64]. *)
Definition receive_side_in_range (c : flowController CPM) : Prop :=
  is_uint64 (bytesRead c) /\ is_uint64 (receiveWindow c) /\
  is_uint64 (receiveWindowIncrement c) /\ is_uint64 (maxReceiveWindowIncrement c).

End Methods.

(** *** Concrete worlds and parameters, for the examples *)

(** A clock that reads [t0], [t0 + dt], [t0 + 2 dt], ..., and RTT statistics
    whose smoothed RTT is [rtt] at every address. *)
Definition world_of (t0 dt : time.Time) (rtt : time.Duration) : World :=
  {| clock := fun n => t0 + dt * Z.of_nat n; ticks := 0;
     heap := fun _ => {| congestion.smoothedRTT := rtt |}; debugLog := [] |}.

(** Parameters with the receive window [initial], the maximal increment [max]
    and the send window [send], for streams and for the connection alike. *)
Definition params (initial max send : Z) : handshake.mockConnectionParametersManager :=
  {| handshake.sendStreamFlowControlWindow := send;
     handshake.sendConnectionFlowControlWindow := send;
     handshake.receiveStreamFlowControlWindow := initial;
     handshake.maxReceiveStreamFlowControlWindow := max;
     handshake.receiveConnectionFlowControlWindow := initial;
     handshake.maxReceiveConnectionFlowControlWindow := max |}.

(** A fresh machine: a controller for [streamID] in the world above. *)
Definition fresh (streamID : StreamID) (initial max send : Z)
    (t0 dt : time.Time) (rtt : time.Duration)
    : Machine handshake.mockConnectionParametersManager :=
  {| self := newFlowController streamID (params initial max send) 0;
     world := world_of t0 dt rtt |}.


(** Two updates 1 ms apart with a smoothed RTT of 100 ms, as calls. *)
Definition two_updates : list (World * Call) :=
  [ (world_of 1000000000 1000000 100000000, CallAddBytesRead 600);
    (world_of 1000000000 1000000 100000000, CallMaybeUpdateWindow);
    (world_of 1001000000 1000000 100000000, CallAddBytesRead 600);
    (world_of 1001000000 1000000 100000000, CallMaybeUpdateWindow) ].

(** Offsets of a stream as frames deliver them: out of order and repeated. *)
Definition reordered_offsets : list ByteCount := [10; 5; 30; 30; 20].

(** ** Properties *)

(** *** Arithmetic of [uint64] *)

Lemma add64_range (a b : ByteCount) : is_uint64 (add64 a b).
Proof. apply Z.mod_pos_bound. reflexivity. Qed.

Lemma sub64_range (a b : ByteCount) : is_uint64 (sub64 a b).
Proof. apply Z.mod_pos_bound. reflexivity. Qed.

Lemma mul64_range (a b : ByteCount) : is_uint64 (mul64 a b).
Proof. apply Z.mod_pos_bound. reflexivity. Qed.

Lemma add64_exact (a b : ByteCount) :
  0 <= a + b < modulus -> add64 a b = a + b.
Proof. intros Hr. unfold add64. now apply Z.mod_small. Qed.

Lemma sub64_exact (a b : ByteCount) :
  is_uint64 a -> 0 <= b <= a -> sub64 a b = a - b.
Proof.
  unfold is_uint64, sub64. intros Ha Hb. apply Z.mod_small. lia.
Qed.

(** Below zero the difference wraps around: it is [a - b + 2^64]. *)
Lemma sub64_wraps (a b : ByteCount) :
  is_uint64 a -> is_uint64 b -> a < b -> sub64 a b = a - b + modulus.
Proof.
  unfold is_uint64, sub64. intros Ha Hb Hlt.
  symmetry. apply (Z.mod_unique_pos _ _ (-1)); lia.
Qed.

Lemma mul64_exact (a b : ByteCount) :
  0 <= a * b < modulus -> mul64 a b = a * b.
Proof. intros Hr. unfold mul64. now apply Z.mod_small. Qed.

Lemma MinByteCount_min (a b : ByteCount) : utils.MinByteCount a b = Z.min a b.
Proof. unfold utils.MinByteCount. destruct (Z.ltb_spec a b); lia. Qed.

Lemma MinByteCount_range (a b : ByteCount) :
  is_uint64 a -> is_uint64 b -> is_uint64 (utils.MinByteCount a b).
Proof. unfold utils.MinByteCount. now destruct (a <? b). Qed.

(** *** Arithmetic of durations *)

Lemma time_mul_exact (a b : time.Duration) :
  time.minDuration <= a * b <= time.maxDuration -> time.mul a b = a * b.
Proof.
  unfold time.mul, time.minDuration, time.maxDuration. intros Hr.
  rewrite Z.mod_small; lia.
Qed.

Lemma time_Sub_exact (t u : time.Time) :
  time.minDuration <= t - u <= time.maxDuration -> time.Sub t u = t - u.
Proof.
  unfold time.Sub. intros Hr.
  destruct (Z.ltb_spec (t - u) time.minDuration); [lia|].
  destruct (Z.ltb_spec time.maxDuration (t - u)); [lia|reflexivity].
Qed.

Section Properties.

Context {CPM : Type} `{handshake.ConnectionParametersManager CPM}.

(** Unfolding the methods down to the monad's operations. *)
Ltac unfold_methods :=
  unfold call, MaybeUpdateWindow, CheckFlowControlViolation, AddBytesRead,
    IncrementHighestReceived, UpdateHighestReceived, SendWindowOffset,
    SendWindowSize, UpdateSendWindow, AddBytesSent, getSendWindow,
    bind, ret, this, assign, after in *.

(** Case analysis on the conditions of the goal. *)
Ltac case_ifs :=
  repeat match goal with
         | |- context [if ?b then _ else _] => destruct b; cbv beta iota zeta
         end.

(** *** The auto-tuning step *)

Lemma maybeAdjustWindowIncrement_self (m : Machine CPM) :
  self (after maybeAdjustWindowIncrement m) =
  if updates_too_often m then
    set_receiveWindowIncrement
      (utils.MinByteCount (mul64 2 (receiveWindowIncrement (self m)))
                          (maxReceiveWindowIncrement (self m))) (self m)
  else self m.
Proof.
  unfold updates_too_often, after, maybeAdjustWindowIncrement, bind, ret, this,
    rttStats_SmoothedRTT, time_Now, assign, utils_Debugf.
  destruct m as [c w]; cbn [self world].
  destruct (time.IsZero (lastWindowUpdateTime c)); cbn; [reflexivity|].
  destruct (congestion.SmoothedRTT (heap w (rttStats c)) =? 0); cbn; [reflexivity|].
  destruct (time.Sub (clock w (ticks w)) (lastWindowUpdateTime c)
            >=? time.mul 2 (congestion.SmoothedRTT (heap w (rttStats c))));
    cbn; [reflexivity|].
  destruct (receiveWindowIncrement c <? _); [destruct (streamID c =? 0)|]; reflexivity.
Qed.

Lemma adjusted_increment_eq (m : Machine CPM) :
  adjusted_increment m =
  if updates_too_often m then
    utils.MinByteCount (mul64 2 (receiveWindowIncrement (self m)))
                       (maxReceiveWindowIncrement (self m))
  else receiveWindowIncrement (self m).
Proof.
  unfold adjusted_increment. rewrite maybeAdjustWindowIncrement_self.
  now destruct (updates_too_often m).
Qed.

(** The step does not decrease an increment that is within its maximum and
    whose double fits in 64 bits. *)
Lemma adjusted_increment_grows (m : Machine CPM) :
  0 <= receiveWindowIncrement (self m) <= maxReceiveWindowIncrement (self m) ->
  2 * receiveWindowIncrement (self m) < modulus ->
  receiveWindowIncrement (self m) <= adjusted_increment m <=
  2 * receiveWindowIncrement (self m).
Proof.
  intros Hmax Hdbl. rewrite adjusted_increment_eq.
  destruct (updates_too_often m); [|lia].
  rewrite MinByteCount_min, mul64_exact by lia. lia.
Qed.

Lemma adjusted_increment_within_max (m : Machine CPM) :
  receiveWindowIncrement (self m) <= maxReceiveWindowIncrement (self m) ->
  adjusted_increment m <= maxReceiveWindowIncrement (self m).
Proof.
  intros Hmax. rewrite adjusted_increment_eq.
  destruct (updates_too_often m); [|lia].
  rewrite MinByteCount_min. lia.
Qed.

(** The other fields are left as they are. *)
Lemma maybeAdjustWindowIncrement_frame (m : Machine CPM) :
  let c' := self (after maybeAdjustWindowIncrement m) in
  bytesRead c' = bytesRead (self m) /\
  receiveWindow c' = receiveWindow (self m) /\
  maxReceiveWindowIncrement c' = maxReceiveWindowIncrement (self m).
Proof.
  cbv zeta. rewrite maybeAdjustWindowIncrement_self.
  now destruct (updates_too_often m).
Qed.

(** The step in the arithmetic of the code: the product [2 * rtt] is the one
    of [int64], the elapsed time is the saturated [time.Sub], and the product
    [2 * receiveWindowIncrement] is the one of [uint64]. *)
Lemma maybeAdjustWindowIncrement_uint64 (m : Machine CPM) :
  let c := self m in
  let rtt := congestion.SmoothedRTT (heap (world m) (rttStats c)) in
  let elapsed :=
    time.Sub (clock (world m) (ticks (world m))) (lastWindowUpdateTime c) in
  let increment' := receiveWindowIncrement (self (after maybeAdjustWindowIncrement m)) in
  (time.IsZero (lastWindowUpdateTime c) = true \/ rtt = 0 \/ time.mul 2 rtt <= elapsed ->
   increment' = receiveWindowIncrement c) /\
  (time.IsZero (lastWindowUpdateTime c) = false -> rtt <> 0 ->
   elapsed < time.mul 2 rtt ->
   increment' = utils.MinByteCount (mul64 2 (receiveWindowIncrement c))
                                   (maxReceiveWindowIncrement c)) /\
  (0 <= receiveWindowIncrement c <= maxReceiveWindowIncrement c ->
   2 * receiveWindowIncrement c < modulus ->
   receiveWindowIncrement c <= increment' /\
   (time.IsZero (lastWindowUpdateTime c) = false -> rtt <> 0 ->
    elapsed < time.mul 2 rtt ->
    increment' = Z.min (2 * receiveWindowIncrement c) (maxReceiveWindowIncrement c))).
Proof.
  cbv zeta. fold (adjusted_increment m).
  assert (Hcase : forall b,
    updates_too_often m = b ->
    if b then
      time.IsZero (lastWindowUpdateTime (self m)) = false /\
      congestion.SmoothedRTT (heap (world m) (rttStats (self m))) <> 0 /\
      time.Sub (clock (world m) (ticks (world m))) (lastWindowUpdateTime (self m))
      < time.mul 2 (congestion.SmoothedRTT (heap (world m) (rttStats (self m))))
    else
      time.IsZero (lastWindowUpdateTime (self m)) = true \/
      congestion.SmoothedRTT (heap (world m) (rttStats (self m))) = 0 \/
      time.mul 2 (congestion.SmoothedRTT (heap (world m) (rttStats (self m))))
      <= time.Sub (clock (world m) (ticks (world m))) (lastWindowUpdateTime (self m))).
  { intros b <-. unfold updates_too_often.
    destruct (time.IsZero _); cbn; [now left|].
    destruct (Z.eqb_spec (congestion.SmoothedRTT (heap (world m) (rttStats (self m)))) 0);
      cbn; [now right; left|].
    destruct (Z.geb_spec
                (time.Sub (clock (world m) (ticks (world m))) (lastWindowUpdateTime (self m)))
                (time.mul 2 (congestion.SmoothedRTT (heap (world m) (rttStats (self m))))));
      cbn; [right; right; lia|]. repeat split; [assumption|lia]. }
  pose proof (adjusted_increment_eq m) as Heq.
  specialize (Hcase _ eq_refl).
  destruct (updates_too_often m).
  - destruct Hcase as (Hz & Hrtt & Hel). repeat split.
    + intros [Hz'|[Hrtt'|Hel']]; [congruence|contradiction|lia].
    + intros _ _ _. exact Heq.
    + apply adjusted_increment_grows; assumption.
    + intros _ _ _. rewrite Heq, MinByteCount_min, mul64_exact by lia. reflexivity.
  - repeat split.
    + intros _. exact Heq.
    + intros Hz Hrtt Hel. destruct Hcase as [Hz'|[Hrtt'|Hel']]; [congruence|contradiction|lia].
    + rewrite Heq. lia.
    + intros Hz Hrtt Hel. destruct Hcase as [Hz'|[Hrtt'|Hel']]; [congruence|contradiction|lia].
Qed.

(** *** The window update *)

(** [MaybeUpdateWindow], branch by branch. *)
Lemma MaybeUpdateWindow_eq (m : Machine CPM) :
  MaybeUpdateWindow m =
  if sub64 (receiveWindow (self m)) (bytesRead (self m))
     <? receiveWindowIncrement (self m) / 2
  then
    let m1 := after maybeAdjustWindowIncrement m in
    let w1 := world m1 in
    let c2 := set_receiveWindow
                (add64 (bytesRead (self m1)) (receiveWindowIncrement (self m1)))
                (set_lastWindowUpdateTime (clock w1 (ticks w1)) (self m1)) in
    ((true, receiveWindow c2),
     {| self := c2;
        world := {| clock := clock w1; ticks := S (ticks w1); heap := heap w1;
                    debugLog := debugLog w1 |} |})
  else ((false, 0), m).
Proof.
  unfold MaybeUpdateWindow, bind, ret, this, assign, time_Now, after.
  destruct (_ <? _); [|reflexivity].
  destruct (maybeAdjustWindowIncrement m) as [u m1]. reflexivity.
Qed.

(** [MaybeUpdateWindow] in the arithmetic of [uint64]: the difference
    [receiveWindow - bytesRead] and the sum [bytesRead + I'] are those of
    [uint64], exact when they do not wrap. *)
Lemma MaybeUpdateWindow_threshold (m : Machine CPM) :
  let c := self m in
  let due := fst (fst (MaybeUpdateWindow m)) in
  let offset := snd (fst (MaybeUpdateWindow m)) in
  let m' := after MaybeUpdateWindow m in
  let I' := receiveWindowIncrement (self (after maybeAdjustWindowIncrement m)) in
  (due = true <->
   sub64 (receiveWindow c) (bytesRead c) < receiveWindowIncrement c / 2) /\
  (is_uint64 (receiveWindow c) -> 0 <= bytesRead c <= receiveWindow c ->
   (due = true <-> receiveWindow c - bytesRead c < receiveWindowIncrement c / 2)) /\
  (due = true ->
   receiveWindow (self m') = add64 (bytesRead c) I' /\
   receiveWindowIncrement (self m') = I' /\
   offset = receiveWindow (self m') /\
   (0 <= bytesRead c + I' < modulus -> receiveWindow (self m') = bytesRead c + I')) /\
  (due = false -> m' = m).
Proof.
  cbv zeta. unfold after. rewrite MaybeUpdateWindow_eq.
  destruct (maybeAdjustWindowIncrement_frame m) as (Hread & _ & _).
  cbv zeta in Hread. unfold after in *.
  destruct (Z.ltb_spec (sub64 (receiveWindow (self m)) (bytesRead (self m)))
                       (receiveWindowIncrement (self m) / 2)) as [Hlt|Hge];
    cbn [fst snd self receiveWindow receiveWindowIncrement
         set_receiveWindow set_lastWindowUpdateTime].
  - rewrite Hread. repeat split; try (intros; assumption); try reflexivity.
    + intros _. rewrite <- sub64_exact; assumption.
    + intros Hfit. now apply add64_exact.
    + discriminate.
  - repeat split; try discriminate; try (intros; lia).
    intros Hdue. rewrite sub64_exact in Hge; [lia|assumption|assumption].
Qed.

(** C10: when [MaybeUpdateWindow] returns false, the offset it returns is 0
    and the controller and the world are as they were: no field is written,
    the auto-tuning step is not run and the clock is not read. *)
Theorem MaybeUpdateWindow_not_due (m : Machine CPM) :
  fst (fst (MaybeUpdateWindow m)) = false ->
  MaybeUpdateWindow m = ((false, 0), m).
Proof.
  rewrite MaybeUpdateWindow_eq.
  destruct (_ <? _); cbn; [discriminate|reflexivity].
Qed.

(** When [2 * rtt] fits strictly in [int64], comparing it with the saturated
    elapsed time is comparing it with the elapsed time itself. *)
Lemma elapsed_at_least (now last : time.Time) (rtt : time.Duration) :
  - 2 ^ 62 < rtt < 2 ^ 62 ->
  (time.mul 2 rtt <= time.Sub now last <-> 2 * rtt <= now - last).
Proof.
  intros Hrtt.
  rewrite time_mul_exact by (unfold time.minDuration, time.maxDuration; lia).
  unfold time.Sub, time.minDuration, time.maxDuration.
  destruct (Z.ltb_spec (now - last) (- 2 ^ 63)); [lia|].
  destruct (Z.ltb_spec (2 ^ 63 - 1) (now - last)); lia.
Qed.

(** C3 (amended): the increment a triggered window update ends with is the
    one the auto-tuning step leaves.  The step leaves
    [receiveWindowIncrement] unchanged when [lastWindowUpdateTime] is the zero
    value or when the smoothed RTT is zero.  When
    [-2^62 < smoothedRTT < 2^62], so that [2 * smoothedRTT] fits in an
    [int64], it leaves the increment unchanged when the time elapsed since the
    last window update (the clock reading minus [lastWindowUpdateTime]) is at
    least [2 * smoothedRTT]; otherwise, when [2 * receiveWindowIncrement] is
    below [2^64], it sets the increment to the minimum of
    [2 * receiveWindowIncrement] and [maxReceiveWindowIncrement].  When
    [receiveWindowIncrement <= maxReceiveWindowIncrement] and
    [2 * receiveWindowIncrement] is below [2^64], the step does not decrease
    the increment.  Products, differences and comparisons are those of the
    integers. *)
Theorem maybeAdjustWindowIncrement_increment (m : Machine CPM) :
  let c := self m in
  let rtt := congestion.SmoothedRTT (heap (world m) (rttStats c)) in
  let elapsed := clock (world m) (ticks (world m)) - lastWindowUpdateTime c in
  let increment' := receiveWindowIncrement (self (after maybeAdjustWindowIncrement m)) in
  (fst (fst (MaybeUpdateWindow m)) = true ->
   receiveWindowIncrement (self (after MaybeUpdateWindow m)) = increment') /\
  (time.IsZero (lastWindowUpdateTime c) = true \/ rtt = 0 ->
   increment' = receiveWindowIncrement c) /\
  (- 2 ^ 62 < rtt < 2 ^ 62 ->
   (2 * rtt <= elapsed -> increment' = receiveWindowIncrement c) /\
   (time.IsZero (lastWindowUpdateTime c) = false -> rtt <> 0 -> elapsed < 2 * rtt ->
    0 <= 2 * receiveWindowIncrement c < modulus ->
    increment' = Z.min (2 * receiveWindowIncrement c) (maxReceiveWindowIncrement c))) /\
  (0 <= receiveWindowIncrement c <= maxReceiveWindowIncrement c ->
   2 * receiveWindowIncrement c < modulus ->
   receiveWindowIncrement c <= increment').
Proof.
  cbv zeta.
  destruct (maybeAdjustWindowIncrement_uint64 m) as (Hsame & Hmin & Hgrow).
  cbv zeta in Hsame, Hmin, Hgrow.
  destruct (MaybeUpdateWindow_threshold m) as (_ & _ & Hdue & _).
  cbv zeta in Hdue.
  split; [intros Htrue; now destruct (Hdue Htrue) as (_ & ? & _)|].
  split; [intros [Hzero|Hrtt]; apply Hsame; [now left|now right; left]|].
  split.
  - intros Hrtt. split.
    + intros Hel. apply Hsame. right; right. now apply elapsed_at_least.
    + intros Hzero Hnz Hel Hfit.
      rewrite Hmin; try assumption.
      * rewrite MinByteCount_min, mul64_exact by lia. reflexivity.
      * pose proof (elapsed_at_least (clock (world m) (ticks (world m)))
                      (lastWindowUpdateTime (self m)) _ Hrtt). lia.
  - intros Hmax Hfit. now apply Hgrow.
Qed.

(** C1 (amended): in every state where the byte counts of the receive side
    are [uint64] values and [bytesRead <= receiveWindow], [MaybeUpdateWindow]
    returns due = true if and only if
    [receiveWindow - bytesRead < receiveWindowIncrement / 2]; when it returns
    true, it has set [receiveWindow] to [bytesRead + I'] reduced modulo
    [2^64], where [I'] is the increment the auto-tuning step leaves, which is
    [bytesRead + I'] itself when that sum is below [2^64], and returns that
    [receiveWindow] as the offset; when it returns false, it has updated
    nothing. *)
Theorem MaybeUpdateWindow_within_window (m : Machine CPM) :
  receive_side_in_range (self m) ->
  bytesRead (self m) <= receiveWindow (self m) ->
  let c := self m in
  let due := fst (fst (MaybeUpdateWindow m)) in
  let offset := snd (fst (MaybeUpdateWindow m)) in
  let m' := after MaybeUpdateWindow m in
  let I' := receiveWindowIncrement (self (after maybeAdjustWindowIncrement m)) in
  (due = true <->
   receiveWindow c - bytesRead c < receiveWindowIncrement c / 2) /\
  (due = true ->
   receiveWindow (self m') = (bytesRead c + I') mod 2 ^ 64 /\
   (bytesRead c + I' < 2 ^ 64 -> receiveWindow (self m') = bytesRead c + I') /\
   offset = receiveWindow (self m')) /\
  (due = false -> m' = m).
Proof.
  intros (Hr & Hw & Hi & Hm) Hle. cbv zeta.
  destruct (MaybeUpdateWindow_threshold m) as (_ & Hiff & Hdue & Hnot).
  cbv zeta in Hiff, Hdue, Hnot.
  assert (Ha : is_uint64 (receiveWindowIncrement
                            (self (after maybeAdjustWindowIncrement m)))).
  { fold (adjusted_increment m). rewrite adjusted_increment_eq.
    destruct (updates_too_often m); [|exact Hi].
    apply MinByteCount_range; [apply mul64_range|exact Hm]. }
  unfold is_uint64 in *. split; [apply Hiff; [exact Hw|lia]|].
  split; [|exact Hnot].
  intros Htrue. destruct (Hdue Htrue) as (Hwin & _ & Hoff & Hexact).
  split; [exact Hwin|]. split; [|exact Hoff].
  intros Hfit. apply Hexact. change modulus with (2 ^ 64) in *. lia.
Qed.

(** *** The send side *)

(** C7: [SendWindowSize] returns [max(0, effectiveSendWindow - bytesSent)],
    where the effective send window is [sendWindow] when it is not zero and
    otherwise the negotiated send window of the scope (the connection's for
    stream 0, the stream's otherwise); the result is a [uint64], and it is 0
    when [bytesSent] exceeds the window; [SendWindowOffset] returns the
    effective send window.  Neither writes a field. *)
Theorem SendWindowSize_clamped (m : Machine CPM) :
  is_uint64 (bytesSent (self m)) -> is_uint64 (sendWindow (self m)) ->
  SendWindowSize m =
    (Z.max 0 (effectiveSendWindow (self m) - bytesSent (self m)), m) /\
  SendWindowOffset m = (effectiveSendWindow (self m), m) /\
  is_uint64 (fst (SendWindowSize m)) /\
  (effectiveSendWindow (self m) < bytesSent (self m) -> fst (SendWindowSize m) = 0).
Proof.
  intros Hsent Hwin.
  assert (Hget : getSendWindow m = (effectiveSendWindow (self m), m)).
  { unfold getSendWindow, effectiveSendWindow, initialSendWindow, bind, ret, this.
    destruct (sendWindow (self m) =? 0); [destruct (streamID (self m) =? 0)|];
      reflexivity. }
  assert (Heff : is_uint64 (effectiveSendWindow (self m))).
  { unfold effectiveSendWindow, initialSendWindow.
    destruct (sendWindow (self m) =? 0); [destruct (streamID (self m) =? 0)|].
    - apply handshake.SendConnection_range.
    - apply handshake.SendStream_range.
    - assumption. }
  assert (Hsize : SendWindowSize m =
    (Z.max 0 (effectiveSendWindow (self m) - bytesSent (self m)), m)).
  { unfold SendWindowSize, bind. rewrite Hget. unfold this, ret.
    destruct (Z.gtb_spec (bytesSent (self m)) (effectiveSendWindow (self m))).
    - f_equal. lia.
    - rewrite sub64_exact by (unfold is_uint64 in *; lia). f_equal. lia. }
  repeat split.
  - exact Hsize.
  - exact Hget.
  - rewrite Hsize. cbn [fst]. unfold is_uint64 in *. lia.
  - rewrite Hsize. cbn [fst]. unfold is_uint64 in *. lia.
  - intros Hover. rewrite Hsize. cbn [fst]. lia.
Qed.

Lemma max_offset_app (l : list ByteCount) (o : ByteCount) :
  0 <= o -> max_offset (l ++ [o]) = Z.max (max_offset l) o.
Proof.
  intros Ho. induction l as [|x l IH]; cbn.
  - lia.
  - fold (max_offset (l ++ [o])). fold (max_offset l). rewrite IH. lia.
Qed.

Lemma max_offset_upper_bound (l : list ByteCount) :
  Forall (fun x => x <= max_offset l) l.
Proof.
  induction l as [|x l IH]; constructor.
  - cbn. lia.
  - eapply Forall_impl; [|exact IH]. cbn. fold (max_offset l). intros; lia.
Qed.

Lemma max_offset_in (l : list ByteCount) :
  Forall is_uint64 l -> l <> [] -> In (max_offset l) l.
Proof.
  induction l as [|x l IH]; [congruence|]. intros Hall _.
  inversion Hall as [|? ? Hx Hl]; subst. cbn. fold (max_offset l).
  destruct l as [|y l].
  - left. cbn. unfold is_uint64 in Hx. lia.
  - destruct (Z.max_spec x (max_offset (y :: l))) as [[_ ->]|[_ ->]].
    + right. apply IH; [assumption|discriminate].
    + now left.
Qed.

Lemma UpdateSendWindow_eq (o : ByteCount) (m : Machine CPM) :
  UpdateSendWindow o m =
  if o >? sendWindow (self m)
  then (true, {| self := set_sendWindow o (self m); world := world m |})
  else (false, m).
Proof.
  unfold UpdateSendWindow, bind, ret, this, assign. cbv beta iota zeta.
  now destruct (o >? sendWindow (self m)).
Qed.

Lemma UpdateSendWindow_each_app (l : list ByteCount) (o : ByteCount) (m : Machine CPM) :
  UpdateSendWindow_each (l ++ [o]) m =
  (fst (UpdateSendWindow_each l m)
     ++ [fst (UpdateSendWindow o (snd (UpdateSendWindow_each l m)))],
   snd (UpdateSendWindow o (snd (UpdateSendWindow_each l m)))).
Proof.
  revert m. induction l as [|x l IH]; intros m;
    cbn [UpdateSendWindow_each app fst snd].
  - now destruct (UpdateSendWindow o m).
  - destruct (UpdateSendWindow x m) as [b m1]. rewrite IH.
    now destruct (UpdateSendWindow_each l m1).
Qed.

Lemma UpdateSendWindow_each_cons (x : ByteCount) (l : list ByteCount) (m : Machine CPM) :
  snd (UpdateSendWindow_each (x :: l) m) =
  snd (UpdateSendWindow_each l (snd (UpdateSendWindow x m))).
Proof.
  cbn [UpdateSendWindow_each]. destruct (UpdateSendWindow x m) as [b m1].
  cbn [snd]. now destruct (UpdateSendWindow_each l m1).
Qed.

Lemma UpdateSendWindow_each_sendWindow (l : list ByteCount) (m : Machine CPM) :
  0 <= sendWindow (self m) ->
  sendWindow (self (snd (UpdateSendWindow_each l m))) =
  Z.max (sendWindow (self m)) (max_offset l).
Proof.
  revert m. induction l as [|x l IH]; intros m Hpos.
  - cbn. lia.
  - rewrite UpdateSendWindow_each_cons, UpdateSendWindow_eq.
    cbn [max_offset fold_right]. fold (max_offset l).
    destruct (Z.gtb_spec x (sendWindow (self m))); rewrite IH; cbn; lia.
Qed.

(** C5: after the calls [UpdateSendWindow(o1)], ..., [UpdateSendWindow(ok)]
    on a freshly constructed controller, [sendWindow] is the largest of
    [o1..ok]: one of them, and not below any of them.  The k-th call returns
    true if and only if [ok] exceeds the [sendWindow] stored before it; a call
    with a smaller or equal offset changes nothing. *)
Theorem UpdateSendWindow_maximum (streamID : StreamID) (p : CPM) (rtt : nat)
    (w : World) (earlier : list ByteCount) (o : ByteCount) :
  Forall is_uint64 (earlier ++ [o]) ->
  let m0 := {| self := newFlowController streamID p rtt; world := w |} in
  let m := snd (UpdateSendWindow_each earlier m0) in
  let updated := fst (UpdateSendWindow o m) in
  let m' := snd (UpdateSendWindow o m) in
  UpdateSendWindow_each (earlier ++ [o]) m0 =
    (fst (UpdateSendWindow_each earlier m0) ++ [updated], m') /\
  In (sendWindow (self m')) (earlier ++ [o]) /\
  Forall (fun x => x <= sendWindow (self m')) (earlier ++ [o]) /\
  (updated = true <-> sendWindow (self m) < o) /\
  (o <= sendWindow (self m) -> m' = m).
Proof.
  intros Hall. cbv zeta.
  set (m0 := {| self := newFlowController streamID p rtt; world := w |}).
  assert (H0 : sendWindow (self m0) = 0).
  { unfold m0, newFlowController. cbn. now destruct (streamID =? 0). }
  assert (Hmax : sendWindow (self (snd (UpdateSendWindow o
                    (snd (UpdateSendWindow_each earlier m0)))))
                 = max_offset (earlier ++ [o])).
  { pose proof (UpdateSendWindow_each_sendWindow (earlier ++ [o]) m0) as Hs.
    rewrite UpdateSendWindow_each_app in Hs. cbn [snd] in Hs.
    rewrite Hs, H0 by lia.
    pose proof (max_offset_upper_bound (earlier ++ [o])) as Hub.
    apply Forall_app in Hub as [_ Hub], Hall as [_ Hall].
    inversion Hub; inversion Hall; subst. unfold is_uint64 in *. lia. }
  split; [apply UpdateSendWindow_each_app|].
  split; [rewrite Hmax; apply max_offset_in;
          [assumption|now destruct earlier]|].
  split; [rewrite Hmax; apply max_offset_upper_bound|].
  rewrite UpdateSendWindow_eq.
  destruct (Z.gtb_spec o (sendWindow (self (snd (UpdateSendWindow_each earlier m0)))));
    cbn; repeat split; intros; try lia; try reflexivity; discriminate.
Qed.

(** *** The receive side *)

(** C6: [UpdateHighestReceived(byteOffset)] returns [(0, nil)] and changes
    nothing when [byteOffset] equals [highestReceived]; sets [highestReceived]
    to [byteOffset] and returns the difference and no error when [byteOffset]
    is greater; returns 0 and [ErrReceivedSmallerByteOffset] and changes
    nothing when [byteOffset] is smaller. *)
Theorem UpdateHighestReceived_trichotomy (byteOffset : ByteCount) (m : Machine CPM) :
  is_uint64 byteOffset -> is_uint64 (highestReceived (self m)) ->
  (byteOffset = highestReceived (self m) ->
   UpdateHighestReceived byteOffset m = ((0, None), m)) /\
  (byteOffset > highestReceived (self m) ->
   UpdateHighestReceived byteOffset m =
     ((byteOffset - highestReceived (self m), None),
      {| self := set_highestReceived byteOffset (self m); world := world m |})) /\
  (byteOffset < highestReceived (self m) ->
   UpdateHighestReceived byteOffset m = ((0, Some ErrReceivedSmallerByteOffset), m)).
Proof.
  intros Ho Hh. unfold UpdateHighestReceived, bind, ret, this, assign.
  destruct (Z.eqb_spec byteOffset (highestReceived (self m))) as [Heq|Hne].
  - split; [|split]; intros; [reflexivity|lia|lia].
  - destruct (Z.gtb_spec byteOffset (highestReceived (self m))) as [Hgt|Hle].
    + split; [|split]; intros; [lia| |lia].
      rewrite sub64_exact by (unfold is_uint64 in *; lia). reflexivity.
    + split; [|split]; intros; [lia|lia|reflexivity].
Qed.

Lemma newFlowController_seeds (streamID : StreamID) (p : CPM) (rtt : nat) :
  let c := newFlowController streamID p rtt in
  receiveWindow c = initialWindow streamID p /\
  receiveWindowIncrement c = initialWindow streamID p /\
  maxReceiveWindowIncrement c = maxWindowIncrement streamID p /\
  bytesRead c = 0 /\ highestReceived c = 0 /\ sendWindow c = 0.
Proof.
  unfold newFlowController, initialWindow, maxWindowIncrement.
  now destruct (streamID =? 0).
Qed.

(** C8: [CheckFlowControlViolation] returns true if and only if
    [highestReceived > receiveWindow], and writes no field; a controller
    constructed with the initial window 1000 reports a violation after
    [IncrementHighestReceived(1001)] and none after
    [IncrementHighestReceived(1000)]. *)
Theorem CheckFlowControlViolation_iff (m : Machine CPM)
    (streamID : StreamID) (p : CPM) (rtt : nat) (w : World) :
  (fst (CheckFlowControlViolation m) = true <->
   highestReceived (self m) > receiveWindow (self m)) /\
  snd (CheckFlowControlViolation m) = m /\
  (initialWindow streamID p = 1000 ->
   let m0 := {| self := newFlowController streamID p rtt; world := w |} in
   fst (CheckFlowControlViolation (after (IncrementHighestReceived 1001) m0)) = true /\
   fst (CheckFlowControlViolation (after (IncrementHighestReceived 1000) m0)) = false).
Proof.
  split; [|split].
  - unfold CheckFlowControlViolation, bind, ret, this.
    destruct (Z.gtb_spec (highestReceived (self m)) (receiveWindow (self m)));
      cbn; split; intros; try lia; try reflexivity; discriminate.
  - unfold CheckFlowControlViolation, bind, ret, this. now destruct (_ >? _).
  - intros Hinitial.
    destruct (newFlowController_seeds streamID p rtt) as (Hw & _ & _ & _ & Hh & _).
    cbv zeta in *. unfold_methods. cbn. rewrite Hw, Hh, Hinitial. split; reflexivity.
Qed.

(** *** Invariants of the interface *)

(** What holds of a controller and is kept by every call holds after every
    sequence of calls. *)
Lemma run_invariant (P : flowController CPM -> Prop) :
  (forall w o c, P c -> P (step w o c)) ->
  forall calls c, P c -> P (run calls c).
Proof.
  intros Hstep calls. induction calls as [|[w o] calls IH]; intros c Hc; cbn.
  - exact Hc.
  - apply IH, Hstep, Hc.
Qed.

(** What each call writes. *)
Lemma step_eq (w : World) (o : Call) (c : flowController CPM) :
  step w o c =
  match o with
  | CallAddBytesSent n => set_bytesSent (add64 (bytesSent c) n) c
  | CallUpdateSendWindow newOffset =>
      if newOffset >? sendWindow c then set_sendWindow newOffset c else c
  | CallUpdateHighestReceived byteOffset =>
      if byteOffset >? highestReceived c then set_highestReceived byteOffset c else c
  | CallIncrementHighestReceived increment =>
      set_highestReceived (add64 (highestReceived c) increment) c
  | CallAddBytesRead n => set_bytesRead (add64 (bytesRead c) n) c
  | CallMaybeUpdateWindow => self (after MaybeUpdateWindow {| self := c; world := w |})
  | CallSendWindowSize | CallSendWindowOffset | CallCheckFlowControlViolation => c
  end.
Proof.
  unfold step. destruct o; unfold call, bind, ret.
  - reflexivity.
  - rewrite UpdateSendWindow_eq. cbn [self]. now destruct (_ >? _).
  - unfold SendWindowSize, getSendWindow, bind, ret, this. cbn [self].
    destruct (sendWindow c =? 0); [destruct (streamID c =? 0)|];
      cbv beta iota zeta; cbn [self]; case_ifs; reflexivity.
  - unfold SendWindowOffset, getSendWindow, bind, ret, this. cbn [self].
    case_ifs; reflexivity.
  - unfold UpdateHighestReceived, bind, ret, this, assign. cbn [self].
    destruct (Z.eqb_spec byteOffset (highestReceived c)) as [->|Hne].
    + cbn [snd self]. destruct (Z.gtb_spec (highestReceived c) (highestReceived c));
        [lia|reflexivity].
    + now destruct (byteOffset >? highestReceived c).
  - reflexivity.
  - reflexivity.
  - unfold after. now destruct (MaybeUpdateWindow _).
  - unfold CheckFlowControlViolation, bind, ret, this. cbn [self].
    now destruct (highestReceived c >? receiveWindow c).
Qed.

(** The receive side after [MaybeUpdateWindow]. *)
Lemma MaybeUpdateWindow_receive_side (m : Machine CPM) :
  let c := self m in
  let c' := self (after MaybeUpdateWindow m) in
  bytesRead c' = bytesRead c /\
  maxReceiveWindowIncrement c' = maxReceiveWindowIncrement c /\
  if sub64 (receiveWindow c) (bytesRead c) <? receiveWindowIncrement c / 2 then
    receiveWindowIncrement c' = adjusted_increment m /\
    receiveWindow c' = add64 (bytesRead c) (adjusted_increment m)
  else
    receiveWindowIncrement c' = receiveWindowIncrement c /\
    receiveWindow c' = receiveWindow c.
Proof.
  cbv zeta.
  destruct (maybeAdjustWindowIncrement_frame m) as (Hread & _ & Hmax).
  cbv zeta in Hread, Hmax. unfold adjusted_increment, after in *.
  rewrite MaybeUpdateWindow_eq. unfold after.
  destruct (sub64 (receiveWindow (self m)) (bytesRead (self m))
            <? receiveWindowIncrement (self m) / 2);
    cbn [snd self bytesRead maxReceiveWindowIncrement receiveWindow
         receiveWindowIncrement set_receiveWindow set_lastWindowUpdateTime].
  - rewrite Hread, Hmax. auto.
  - auto.
Qed.

Lemma step_in_range (w : World) (o : Call) (c : flowController CPM) :
  receive_side_in_range c -> receive_side_in_range (step w o c).
Proof.
  unfold receive_side_in_range. intros (Hr & Hw & Hi & Hm). rewrite step_eq.
  destruct o; try (cbn; now auto using add64_range).
  - destruct (_ >? _); cbn; auto.
  - destruct (_ >? _); cbn; auto.
  - pose proof (MaybeUpdateWindow_receive_side {| self := c; world := w |}) as Hs.
    cbv zeta in Hs. cbn [self] in Hs. destruct Hs as (-> & -> & Hs).
    pose proof (adjusted_increment_eq {| self := c; world := w |}) as Ha.
    cbn [self] in Ha.
    assert (is_uint64 (adjusted_increment {| self := c; world := w |})).
    { rewrite Ha. destruct (updates_too_often _); [|assumption].
      apply MinByteCount_range; [apply mul64_range|assumption]. }
    destruct (_ <? _); destruct Hs as (-> & ->); auto using add64_range.
Qed.

Lemma step_within_max (w : World) (o : Call) (c : flowController CPM) :
  receiveWindowIncrement c <= maxReceiveWindowIncrement c ->
  receiveWindowIncrement (step w o c) <= maxReceiveWindowIncrement (step w o c).
Proof.
  intros Hmax. rewrite step_eq.
  destruct o; try (cbn; assumption).
  - now destruct (_ >? _).
  - now destruct (_ >? _).
  - pose proof (MaybeUpdateWindow_receive_side {| self := c; world := w |}) as Hs.
    cbv zeta in Hs. cbn [self] in Hs. destruct Hs as (_ & -> & Hs).
    pose proof (adjusted_increment_within_max {| self := c; world := w |} Hmax).
    destruct (_ <? _); destruct Hs as (-> & _); assumption.
Qed.

(** One call does not decrease the receive window of a controller whose
    increment is within its maximum, as long as the sum the update computes
    fits in 64 bits. *)
Lemma step_receiveWindow (w : World) (o : Call) (c : flowController CPM) :
  receive_side_in_range c ->
  receiveWindowIncrement c <= maxReceiveWindowIncrement c ->
  bytesRead c + 2 * receiveWindowIncrement c < modulus ->
  receiveWindow c <= receiveWindow (step w o c).
Proof.
  unfold receive_side_in_range, is_uint64.
  intros (Hr & Hw & Hi & Hm) Hmax Hfit. rewrite step_eq.
  destruct o; try (cbn; lia).
  - destruct (_ >? _); cbn; lia.
  - destruct (_ >? _); cbn; lia.
  - pose proof (MaybeUpdateWindow_receive_side {| self := c; world := w |}) as Hs.
    cbv zeta in Hs. cbn [self] in Hs. destruct Hs as (_ & _ & Hs).
    pose proof (adjusted_increment_grows {| self := c; world := w |}) as Hg.
    cbn [self] in Hg. specialize (Hg ltac:(lia) ltac:(lia)).
    destruct (Z.ltb_spec (sub64 (receiveWindow c) (bytesRead c))
                         (receiveWindowIncrement c / 2)) as [Hdue|_];
      destruct Hs as (_ & ->); [|lia].
    rewrite add64_exact by lia.
    assert (receiveWindowIncrement c / 2 <= receiveWindowIncrement c)
      by (apply Z.div_le_upper_bound; lia).
    destruct (Z.le_gt_cases (bytesRead c) (receiveWindow c)) as [Hle|Hgt].
    + rewrite sub64_exact in Hdue by (unfold is_uint64; lia). lia.
    + rewrite sub64_wraps in Hdue by (unfold is_uint64; lia). lia.
Qed.

Lemma newFlowController_in_range (streamID : StreamID) (p : CPM) (rtt : nat) :
  receive_side_in_range (newFlowController streamID p rtt).
Proof.
  unfold receive_side_in_range.
  destruct (newFlowController_seeds streamID p rtt) as (-> & -> & -> & -> & _).
  unfold initialWindow, maxWindowIncrement.
  destruct (streamID =? 0); repeat split;
    try apply handshake.ReceiveConnection_range;
    try apply handshake.MaxReceiveConnection_range;
    try apply handshake.ReceiveStream_range;
    try apply handshake.MaxReceiveStream_range; try reflexivity; try discriminate.
Qed.

Lemma run_keeps_range_and_max (streamID : StreamID) (p : CPM) (rtt : nat)
    (calls : list (World * Call)) :
  initialWindow streamID p <= maxWindowIncrement streamID p ->
  let c := run calls (newFlowController streamID p rtt) in
  receive_side_in_range c /\
  receiveWindowIncrement c <= maxReceiveWindowIncrement c.
Proof.
  intros Hparams.
  apply (run_invariant
           (fun c => receive_side_in_range c /\
                     receiveWindowIncrement c <= maxReceiveWindowIncrement c)).
  - intros w o c (Hrange & Hmax). split.
    + now apply step_in_range.
    + now apply step_within_max.
  - split; [apply newFlowController_in_range|].
    destruct (newFlowController_seeds streamID p rtt) as (_ & -> & -> & _).
    exact Hparams.
Qed.

(** C4 (amended): construction seeds [receiveWindow] and
    [receiveWindowIncrement] with the initial window of the scope and
    [maxReceiveWindowIncrement] with its negotiated maximum; when that initial
    window is at most the maximum, [receiveWindowIncrement <=
    maxReceiveWindowIncrement] holds after construction and after every
    sequence of calls of the interface. *)
Theorem increment_within_max (streamID : StreamID) (p : CPM) (rtt : nat)
    (calls : list (World * Call)) :
  initialWindow streamID p <= maxWindowIncrement streamID p ->
  let c0 := newFlowController streamID p rtt in
  (receiveWindow c0 = initialWindow streamID p /\
   receiveWindowIncrement c0 = initialWindow streamID p /\
   maxReceiveWindowIncrement c0 = maxWindowIncrement streamID p) /\
  receiveWindowIncrement c0 <= maxReceiveWindowIncrement c0 /\
  receiveWindowIncrement (run calls c0) <= maxReceiveWindowIncrement (run calls c0).
Proof.
  intros Hparams. cbv zeta.
  destruct (newFlowController_seeds streamID p rtt) as (Hw & Hi & Hm & _).
  cbv zeta in Hw, Hi, Hm.
  assert (H0 : receiveWindowIncrement (newFlowController streamID p rtt)
               <= maxReceiveWindowIncrement (newFlowController streamID p rtt))
    by (rewrite Hi, Hm; exact Hparams).
  split; [now repeat split|]. split; [exact H0|].
  apply (run_keeps_range_and_max streamID p rtt calls Hparams).
Qed.

(** C9 (amended): for a controller constructed with an initial window that
    is at most the negotiated maximum, in every state reached by calls of the
    interface in which [bytesRead + 2 * receiveWindowIncrement] fits in 64
    bits, each of the nine calls leaves [receiveWindow] greater than or equal
    to its value before. *)
Theorem receiveWindow_non_decreasing (streamID : StreamID) (p : CPM) (rtt : nat)
    (calls : list (World * Call)) (w : World) (o : Call) :
  initialWindow streamID p <= maxWindowIncrement streamID p ->
  let c := run calls (newFlowController streamID p rtt) in
  bytesRead c + 2 * receiveWindowIncrement c < modulus ->
  receiveWindow c <= receiveWindow (step w o c).
Proof.
  intros Hparams c Hfit.
  destruct (run_keeps_range_and_max streamID p rtt calls Hparams) as (Hrange & Hmax).
  now apply step_receiveWindow.
Qed.

End Properties.

(** ** Further properties of the methods *)

Lemma sub64_add64 (a b : ByteCount) : is_uint64 b -> sub64 (add64 a b) a = b.
Proof.
  intros Hb. unfold sub64, add64.
  rewrite Zminus_mod_idemp_l. replace (a + b - a) with b by lia.
  now apply Z.mod_small.
Qed.

Lemma add64_assoc (a b c : ByteCount) : add64 (add64 a b) c = add64 a (add64 b c).
Proof.
  unfold add64. rewrite Zplus_mod_idemp_l, Zplus_mod_idemp_r. f_equal. lia.
Qed.

Lemma half_le (a : Z) : 0 <= a -> a / 2 <= a.
Proof. intros Ha. apply Z.div_le_upper_bound; lia. Qed.

Section Behaviour.

Context {CPM : Type} `{handshake.ConnectionParametersManager CPM}.

(** *** The methods as functions of the machine *)

Lemma getSendWindow_eq (m : Machine CPM) :
  getSendWindow m = (effectiveSendWindow (self m), m).
Proof.
  unfold getSendWindow, effectiveSendWindow, initialSendWindow, bind, ret, this.
  destruct (sendWindow (self m) =? 0); [destruct (streamID (self m) =? 0)|];
    reflexivity.
Qed.

Lemma effectiveSendWindow_range (c : flowController CPM) :
  is_uint64 (sendWindow c) -> is_uint64 (effectiveSendWindow c).
Proof.
  intros Hs. unfold effectiveSendWindow, initialSendWindow.
  destruct (sendWindow c =? 0); [destruct (streamID c =? 0)|].
  - apply handshake.SendConnection_range.
  - apply handshake.SendStream_range.
  - exact Hs.
Qed.

Lemma SendWindowSize_eq (m : Machine CPM) :
  SendWindowSize m =
  (if bytesSent (self m) >? effectiveSendWindow (self m) then 0
   else sub64 (effectiveSendWindow (self m)) (bytesSent (self m)), m).
Proof.
  unfold SendWindowSize, bind. rewrite getSendWindow_eq. unfold this, ret.
  now destruct (_ >? _).
Qed.

(** The size of the send window, as an integer expression. *)
Lemma SendWindowSize_value (m : Machine CPM) :
  is_uint64 (bytesSent (self m)) -> is_uint64 (sendWindow (self m)) ->
  fst (SendWindowSize m) = Z.max 0 (effectiveSendWindow (self m) - bytesSent (self m)).
Proof.
  intros Hb Hs. pose proof (effectiveSendWindow_range _ Hs) as He.
  rewrite SendWindowSize_eq. cbn [fst]. unfold is_uint64 in *.
  destruct (Z.gtb_spec (bytesSent (self m)) (effectiveSendWindow (self m))); [lia|].
  rewrite sub64_exact by (unfold is_uint64; lia). lia.
Qed.

Lemma CheckFlowControlViolation_eq (m : Machine CPM) :
  CheckFlowControlViolation m =
  (highestReceived (self m) >? receiveWindow (self m), m).
Proof.
  unfold CheckFlowControlViolation, bind, ret, this. now destruct (_ >? _).
Qed.

Lemma adjusted_increment_range (m : Machine CPM) :
  receive_side_in_range (self m) -> is_uint64 (adjusted_increment m).
Proof.
  intros (_ & _ & Hi & Hm). rewrite adjusted_increment_eq.
  destruct (updates_too_often m); [|exact Hi].
  apply MinByteCount_range; [apply mul64_range|exact Hm].
Qed.

(** [MaybeUpdateWindow] decides on the controller alone, not on the world. *)
Lemma MaybeUpdateWindow_due (m : Machine CPM) :
  fst (fst (MaybeUpdateWindow m)) =
  (sub64 (receiveWindow (self m)) (bytesRead (self m))
   <? receiveWindowIncrement (self m) / 2).
Proof. rewrite MaybeUpdateWindow_eq. now destruct (_ <? _). Qed.

(** *** Construction *)

(** X1: a controller just constructed offers the negotiated send window of
    its scope, both as size and as offset, reports no flow control violation
    and has no window update to announce, whatever the parameters. *)
Theorem newFlowController_fresh (streamID : StreamID) (p : CPM) (rtt : nat) (w : World) :
  let m0 := {| self := newFlowController streamID p rtt; world := w |} in
  SendWindowSize m0 = (initialSendWindow streamID p, m0) /\
  SendWindowOffset m0 = (initialSendWindow streamID p, m0) /\
  CheckFlowControlViolation m0 = (false, m0) /\
  MaybeUpdateWindow m0 = ((false, 0), m0).
Proof.
  cbv zeta.
  set (m0 := {| self := newFlowController streamID p rtt; world := w |}).
  destruct (newFlowController_seeds streamID p rtt) as (Hw & Hi & _ & Hr & Hh & Hs).
  cbv zeta in *.
  pose proof (newFlowController_in_range streamID p rtt) as (_ & Hwr & Hir & _).
  assert (Hid : flowcontrol.streamID (newFlowController streamID p rtt) = streamID
                /\ connectionParameters (newFlowController streamID p rtt) = p
                /\ bytesSent (newFlowController streamID p rtt) = 0).
  { unfold newFlowController. now destruct (streamID =? 0). }
  destruct Hid as (Hid & Hp & Hb).
  assert (He : effectiveSendWindow (self m0) = initialSendWindow streamID p).
  { unfold effectiveSendWindow. cbn [self m0]. now rewrite Hs, Hid, Hp. }
  assert (Her : is_uint64 (initialSendWindow streamID p)).
  { unfold initialSendWindow. destruct (streamID =? 0);
      [apply handshake.SendConnection_range|apply handshake.SendStream_range]. }
  split; [|split; [|split]].
  - rewrite SendWindowSize_eq, He. cbn [self m0]. rewrite Hb.
    unfold is_uint64 in Her.
    destruct (Z.gtb_spec 0 (initialSendWindow streamID p)); [lia|].
    rewrite sub64_exact by (unfold is_uint64; lia). f_equal. lia.
  - unfold SendWindowOffset. now rewrite getSendWindow_eq, He.
  - rewrite CheckFlowControlViolation_eq. cbn [self m0]. rewrite Hh.
    unfold is_uint64 in Hwr.
    destruct (Z.gtb_spec 0 (receiveWindow (newFlowController streamID p rtt)));
      [lia|reflexivity].
  - rewrite MaybeUpdateWindow_eq. cbn [self m0]. rewrite Hr.
    rewrite sub64_exact by (unfold is_uint64 in *; lia).
    rewrite Hw, Hi in *. unfold is_uint64 in Hir.
    pose proof (half_le (initialWindow streamID p)).
    destruct (Z.ltb_spec (initialWindow streamID p - 0) (initialWindow streamID p / 2));
      [lia|reflexivity].
Qed.

(** X2: the first window update of a controller.  After [n] bytes, at most
    the initial window, are read from a controller just constructed, an update
    is due if and only if less than half of the initial window remains; it
    then announces the offset [n + initial window], and the increment is still
    the initial window: the first update never tunes the increment, whatever
    the clock and the RTT statistics say. *)
Theorem MaybeUpdateWindow_first_update (streamID : StreamID) (p : CPM) (rtt : nat)
    (w : World) (n : ByteCount) :
  0 <= n <= initialWindow streamID p ->
  let m := after (AddBytesRead n)
             {| self := newFlowController streamID p rtt; world := w |} in
  (fst (fst (MaybeUpdateWindow m)) = true <->
   initialWindow streamID p - n < initialWindow streamID p / 2) /\
  (fst (fst (MaybeUpdateWindow m)) = true ->
   snd (fst (MaybeUpdateWindow m)) = add64 n (initialWindow streamID p)) /\
  receiveWindowIncrement (self (after MaybeUpdateWindow m)) = initialWindow streamID p.
Proof.
  intros Hn. cbv zeta.
  set (m := after (AddBytesRead n) _).
  destruct (newFlowController_seeds streamID p rtt) as (Hw & Hi & _ & Hr & _).
  cbv zeta in *.
  pose proof (newFlowController_in_range streamID p rtt) as (_ & Hwr & _).
  rewrite Hw in Hwr. unfold is_uint64 in Hwr.
  assert (Hm : receiveWindow (self m) = initialWindow streamID p
               /\ receiveWindowIncrement (self m) = initialWindow streamID p
               /\ bytesRead (self m) = n
               /\ lastWindowUpdateTime (self m) = 0).
  { unfold m, after, AddBytesRead, assign. cbn. rewrite Hw, Hi, Hr.
    repeat split. - apply add64_exact. lia.
    - unfold newFlowController. now destruct (streamID =? 0). }
  destruct Hm as (Hmw & Hmi & Hmr & Hml).
  assert (Hadj : adjusted_increment m = initialWindow streamID p).
  { rewrite adjusted_increment_eq. unfold updates_too_often. rewrite Hml. cbn.
    exact Hmi. }
  pose proof (MaybeUpdateWindow_receive_side m) as Hs. cbv zeta in Hs.
  destruct Hs as (_ & _ & Hs).
  rewrite MaybeUpdateWindow_due.
  assert (Hfst : snd (fst (MaybeUpdateWindow m)) =
                 if sub64 (receiveWindow (self m)) (bytesRead (self m))
                    <? receiveWindowIncrement (self m) / 2
                 then receiveWindow (self (after MaybeUpdateWindow m)) else 0).
  { unfold after. rewrite MaybeUpdateWindow_eq. now destruct (_ <? _). }
  rewrite Hfst. rewrite Hmw, Hmi, Hmr, Hadj in *.
  rewrite sub64_exact in * by (unfold is_uint64; lia).
  destruct (Z.ltb_spec (initialWindow streamID p - n) (initialWindow streamID p / 2));
    destruct Hs as (Hs1 & Hs2); rewrite ?Hs1, ?Hs2;
    (split; [split; intros; try lia; try reflexivity; discriminate|]);
    (split; [intros; try reflexivity; discriminate|reflexivity]).
Qed.

(** *** Window updates *)

(** X3: a second [MaybeUpdateWindow] right after a first one, whatever the
    first one returned and whatever the clock and the RTT statistics are by
    then, has nothing to announce and changes nothing. *)
Theorem MaybeUpdateWindow_twice (m : Machine CPM) (w' : World) :
  receive_side_in_range (self m) ->
  let m1 := {| self := self (after MaybeUpdateWindow m); world := w' |} in
  MaybeUpdateWindow m1 = ((false, 0), m1).
Proof.
  intros Hrange. cbv zeta.
  pose proof (adjusted_increment_range m Hrange) as Ha.
  destruct Hrange as (Hr & Hw & Hi & Hm).
  pose proof (MaybeUpdateWindow_receive_side m) as Hs. cbv zeta in Hs.
  destruct Hs as (Hread & _ & Hs).
  rewrite MaybeUpdateWindow_eq. cbn [self]. rewrite Hread.
  destruct (Z.ltb_spec (sub64 (receiveWindow (self m)) (bytesRead (self m)))
                       (receiveWindowIncrement (self m) / 2)) as [Hdue|Hnot];
    destruct Hs as (-> & ->).
  - rewrite sub64_add64 by exact Ha. unfold is_uint64 in Ha.
    pose proof (half_le (adjusted_increment m)).
    destruct (Z.ltb_spec (adjusted_increment m) (adjusted_increment m / 2));
      [lia|reflexivity].
  - destruct (Z.ltb_spec (sub64 (receiveWindow (self m)) (bytesRead (self m)))
                         (receiveWindowIncrement (self m) / 2)); [lia|reflexivity].
Qed.

(** X4: for a controller constructed with an initial window that is at most
    the negotiated maximum, in a state where
    [bytesRead + 2 * receiveWindowIncrement] fits in 64 bits, an update that
    is due announces an offset strictly beyond the current receive window:
    the exact sum of [bytesRead] and the tuned increment. *)
Theorem MaybeUpdateWindow_announces_more (streamID : StreamID) (p : CPM) (rtt : nat)
    (calls : list (World * Call)) (w : World) :
  initialWindow streamID p <= maxWindowIncrement streamID p ->
  let c := run calls (newFlowController streamID p rtt) in
  let m := {| self := c; world := w |} in
  bytesRead c + 2 * receiveWindowIncrement c < modulus ->
  fst (fst (MaybeUpdateWindow m)) = true ->
  receiveWindow c < snd (fst (MaybeUpdateWindow m)) /\
  snd (fst (MaybeUpdateWindow m)) = bytesRead c + adjusted_increment m /\
  receiveWindow (self (after MaybeUpdateWindow m)) = snd (fst (MaybeUpdateWindow m)).
Proof.
  intros Hparams c m Hfit Hdue.
  destruct (run_keeps_range_and_max streamID p rtt calls Hparams) as (Hrange & Hmax).
  fold c in Hrange, Hmax. destruct Hrange as (Hr & Hw & Hi & Hm).
  unfold is_uint64 in *.
  pose proof (adjusted_increment_grows m) as Hg. cbn [self m] in Hg.
  specialize (Hg ltac:(lia) ltac:(lia)).
  rewrite MaybeUpdateWindow_due in Hdue. apply Z.ltb_lt in Hdue. cbn [self m] in Hdue.
  assert (Hoff : snd (fst (MaybeUpdateWindow m)) = bytesRead c + adjusted_increment m
                 /\ receiveWindow (self (after MaybeUpdateWindow m))
                    = bytesRead c + adjusted_increment m).
  { pose proof (MaybeUpdateWindow_receive_side m) as Hs. cbv zeta in Hs.
    destruct Hs as (_ & _ & Hs). unfold after in *. rewrite MaybeUpdateWindow_eq in *.
    cbn [self m] in *. unfold after in *.
    destruct (Z.ltb_spec (sub64 (receiveWindow c) (bytesRead c))
                         (receiveWindowIncrement c / 2)); [|lia].
    destruct Hs as (_ & Hs). cbn [fst snd self] in *.
    rewrite Hs, add64_exact by lia. split; reflexivity. }
  destruct Hoff as (-> & ->). split; [|split; reflexivity].
  pose proof (half_le (receiveWindowIncrement c)).
  destruct (Z.le_gt_cases (bytesRead c) (receiveWindow c)) as [Hle|Hgt].
  - rewrite sub64_exact in Hdue by (unfold is_uint64; lia). lia.
  - rewrite sub64_wraps in Hdue by (unfold is_uint64; lia). lia.
Qed.

(** X16: once more bytes are read than the receive window allows, no update
    is due: the difference [receiveWindow - bytesRead] wraps around to at
    least [receiveWindow + 1], which is not below half an increment that is at
    most twice [receiveWindow + 1].  The call changes nothing. *)
Theorem MaybeUpdateWindow_past_window (m : Machine CPM) :
  receive_side_in_range (self m) ->
  receiveWindow (self m) < bytesRead (self m) ->
  receiveWindowIncrement (self m) / 2 <= receiveWindow (self m) + 1 ->
  MaybeUpdateWindow m = ((false, 0), m).
Proof.
  intros (Hr & Hw & _) Hpast Hhalf. rewrite MaybeUpdateWindow_eq.
  rewrite sub64_wraps by assumption. unfold is_uint64 in *.
  destruct (Z.ltb_spec (receiveWindow (self m) - bytesRead (self m) + modulus)
                       (receiveWindowIncrement (self m) / 2)); [lia|reflexivity].
Qed.

(** *** What a sequence of calls keeps *)

(** What [maybeAdjustWindowIncrement] and [MaybeUpdateWindow] leave alone. *)
Lemma MaybeUpdateWindow_frame (m : Machine CPM) :
  let c := self m in
  let c' := self (after MaybeUpdateWindow m) in
  streamID c' = streamID c /\ connectionParameters c' = connectionParameters c /\
  rttStats c' = rttStats c /\ bytesSent c' = bytesSent c /\
  sendWindow c' = sendWindow c /\ highestReceived c' = highestReceived c.
Proof.
  cbv zeta. unfold after. rewrite MaybeUpdateWindow_eq.
  destruct (_ <? _); [|now repeat split].
  cbn. fold (after maybeAdjustWindowIncrement m).
  rewrite maybeAdjustWindowIncrement_self.
  now destruct (updates_too_often m).
Qed.

(** X5: the scope, the parameters manager, the RTT statistics and the maximal
    increment of a controller are those it was constructed with, after every
    sequence of calls. *)
Theorem run_keeps_construction (calls : list (World * Call)) (c : flowController CPM) :
  streamID (run calls c) = streamID c /\
  connectionParameters (run calls c) = connectionParameters c /\
  rttStats (run calls c) = rttStats c /\
  maxReceiveWindowIncrement (run calls c) = maxReceiveWindowIncrement c.
Proof.
  revert c. induction calls as [|[w o] calls IH]; intros c; cbn [run].
  - now repeat split.
  - destruct (IH (step w o c)) as (-> & -> & -> & ->).
    rewrite step_eq. destruct o; try (now repeat split).
    + now destruct (_ >? _).
    + now destruct (_ >? _).
    + destruct (MaybeUpdateWindow_frame {| self := c; world := w |}) as (-> & -> & -> & _).
      destruct (MaybeUpdateWindow_receive_side {| self := c; world := w |}) as (_ & -> & _).
      now repeat split.
Qed.

(** X6: [sendWindow] never decreases, whatever the calls and their
    arguments. *)
Theorem run_sendWindow_monotone (calls : list (World * Call)) (c : flowController CPM) :
  sendWindow c <= sendWindow (run calls c).
Proof.
  revert c. induction calls as [|[w o] calls IH]; intros c; cbn [run].
  - lia.
  - etransitivity; [|apply IH].
    rewrite step_eq.
    destruct o;
      try (cbn [sendWindow set_bytesSent set_highestReceived set_bytesRead]; lia).
    + destruct (Z.gtb_spec newOffset (sendWindow c)); cbn [sendWindow set_sendWindow]; lia.
    + destruct (byteOffset >? highestReceived c);
        cbn [sendWindow set_highestReceived]; lia.
    + destruct (MaybeUpdateWindow_frame {| self := c; world := w |})
        as (_ & _ & _ & _ & Hs & _). cbn [self] in Hs. lia.
Qed.

(** X7: when the initial window of the scope is at most the negotiated
    maximum and twice that maximum fits in 64 bits, the increment is, after
    every sequence of calls, the initial window doubled some number of times
    and clamped to the maximum; it is never below the initial window. *)
Theorem run_increment_doubles (streamID : StreamID) (p : CPM) (rtt : nat)
    (calls : list (World * Call)) :
  initialWindow streamID p <= maxWindowIncrement streamID p ->
  2 * maxWindowIncrement streamID p < modulus ->
  let c := run calls (newFlowController streamID p rtt) in
  initialWindow streamID p <= receiveWindowIncrement c <= maxWindowIncrement streamID p /\
  exists k : nat,
    receiveWindowIncrement c =
    Z.min (initialWindow streamID p * 2 ^ Z.of_nat k) (maxWindowIncrement streamID p).
Proof.
  intros Hparams Hfit.
  destruct (newFlowController_seeds streamID p rtt) as (_ & Hi & Hm & _).
  cbv zeta in Hi, Hm.
  pose proof (newFlowController_in_range streamID p rtt) as (_ & _ & Hir & _).
  rewrite Hi in Hir. unfold is_uint64 in Hir.
  apply (run_invariant
           (fun c => maxReceiveWindowIncrement c = maxWindowIncrement streamID p /\
                     (initialWindow streamID p <= receiveWindowIncrement c
                      <= maxWindowIncrement streamID p /\
                      exists k : nat,
                        receiveWindowIncrement c =
                        Z.min (initialWindow streamID p * 2 ^ Z.of_nat k)
                              (maxWindowIncrement streamID p)))).
  - intros w o c (Hmax & Hbounds & k & Hk). rewrite step_eq.
    destruct o; try (cbn; split; [assumption|split; [assumption|now exists k]]).
    + destruct (_ >? _); cbn; (split; [assumption|split; [assumption|now exists k]]).
    + destruct (_ >? _); cbn; (split; [assumption|split; [assumption|now exists k]]).
    + pose proof (MaybeUpdateWindow_receive_side {| self := c; world := w |}) as Hs.
      cbv zeta in Hs. cbn [self] in Hs. destruct Hs as (_ & -> & Hs).
      split; [assumption|].
      pose proof (adjusted_increment_eq {| self := c; world := w |}) as Ha.
      cbn [self] in Ha.
      destruct (_ <? _); destruct Hs as (-> & _);
        [|now split; [|exists k]].
      rewrite Ha. destruct (updates_too_often _); [|now split; [|exists k]].
      rewrite MinByteCount_min, mul64_exact, Hmax by lia.
      split; [lia|]. exists (S k).
      rewrite Nat2Z.inj_succ, Z.pow_succ_r by lia. lia.
  - rewrite Hi, Hm. split; [reflexivity|]. split; [lia|].
    exists 0%nat. cbn. lia.
Qed.

(** X8: for a controller constructed with an initial window that is at most
    the negotiated maximum, in a state where
    [bytesRead + 2 * receiveWindowIncrement] fits in 64 bits, a call that is
    neither [UpdateHighestReceived] nor [IncrementHighestReceived] does not
    turn a controller without flow control violation into one with a
    violation. *)
Theorem step_keeps_no_violation (streamID : StreamID) (p : CPM) (rtt : nat)
    (calls : list (World * Call)) (w w' : World) (o : Call) :
  initialWindow streamID p <= maxWindowIncrement streamID p ->
  let c := run calls (newFlowController streamID p rtt) in
  bytesRead c + 2 * receiveWindowIncrement c < modulus ->
  (forall n, o <> CallUpdateHighestReceived n) ->
  (forall n, o <> CallIncrementHighestReceived n) ->
  fst (CheckFlowControlViolation {| self := c; world := w |}) = false ->
  fst (CheckFlowControlViolation {| self := step w o c; world := w' |}) = false.
Proof.
  intros Hparams c Hfit Hupdate Hincrement.
  destruct (run_keeps_range_and_max streamID p rtt calls Hparams) as (Hrange & Hmax).
  pose proof (step_receiveWindow w o _ Hrange Hmax Hfit) as Hwin. fold c in Hwin.
  rewrite !CheckFlowControlViolation_eq. cbn [fst self]. intros Hno.
  destruct (Z.gtb_spec (highestReceived c) (receiveWindow c)); [discriminate|].
  assert (Hh : highestReceived (step w o c) = highestReceived c).
  { rewrite step_eq. destruct o; try reflexivity.
    - now destruct (_ >? _).
    - now destruct (Hupdate byteOffset).
    - now destruct (Hincrement increment).
    - now destruct (MaybeUpdateWindow_frame {| self := c; world := w |})
        as (_ & _ & _ & _ & _ & ->). }
  rewrite Hh. destruct (Z.gtb_spec (highestReceived c) (receiveWindow (step w o c)));
    [lia|reflexivity].
Qed.

(** *** The send side *)

(** X9: a call of [UpdateSendWindow] that returns true makes its argument
    the send window offset, and one that returns false changes nothing.  Once
    [sendWindow] is not zero, neither the offset nor the size of the send
    window decreases. *)
Theorem UpdateSendWindow_offset (o : ByteCount) (m : Machine CPM) :
  is_uint64 o -> is_uint64 (sendWindow (self m)) -> is_uint64 (bytesSent (self m)) ->
  let m' := after (UpdateSendWindow o) m in
  (fst (UpdateSendWindow o m) = true -> fst (SendWindowOffset m') = o) /\
  (fst (UpdateSendWindow o m) = false -> m' = m) /\
  (sendWindow (self m) <> 0 ->
   fst (SendWindowOffset m) <= fst (SendWindowOffset m') /\
   fst (SendWindowSize m) <= fst (SendWindowSize m')).
Proof.
  intros Ho Hs Hb. cbv zeta. unfold after, SendWindowOffset.
  rewrite UpdateSendWindow_eq, !getSendWindow_eq. unfold is_uint64 in *.
  destruct (Z.gtb_spec o (sendWindow (self m))) as [Hgt|Hle]; cbn [fst snd self].
  - assert (He : effectiveSendWindow (set_sendWindow o (self m)) = o).
    { unfold effectiveSendWindow. cbn [sendWindow set_sendWindow].
      destruct (Z.eqb_spec o 0); [lia|reflexivity]. }
    split; [intros _; exact He|].
    split; [discriminate|]. intros Hnz.
    rewrite !SendWindowSize_value by (cbn; unfold is_uint64; lia).
    cbn [self]. rewrite He. cbn [bytesSent set_sendWindow].
    assert (effectiveSendWindow (self m) = sendWindow (self m)) as ->.
    { unfold effectiveSendWindow. destruct (Z.eqb_spec (sendWindow (self m)) 0);
        [contradiction|reflexivity]. }
    lia.
  - split; [discriminate|]. split; [reflexivity|]. intros _. lia.
Qed.

(** X10: while [sendWindow] is still zero the negotiated send window is in
    force, and the first [UpdateSendWindow] replaces it even by a smaller
    offset: the call returns true and the send window offset decreases. *)
Theorem UpdateSendWindow_below_initial (o : ByteCount) (m : Machine CPM) :
  sendWindow (self m) = 0 ->
  0 < o < initialSendWindow (streamID (self m)) (connectionParameters (self m)) ->
  fst (UpdateSendWindow o m) = true /\
  fst (SendWindowOffset (after (UpdateSendWindow o) m)) = o /\
  fst (SendWindowOffset (after (UpdateSendWindow o) m)) < fst (SendWindowOffset m).
Proof.
  intros Hzero Ho. unfold after, SendWindowOffset.
  rewrite UpdateSendWindow_eq, Hzero, !getSendWindow_eq.
  destruct (Z.gtb_spec o 0); [|lia]. cbn [fst snd self].
  unfold effectiveSendWindow. cbn [sendWindow set_sendWindow streamID connectionParameters].
  rewrite Hzero. cbn. destruct (Z.eqb_spec o 0); [lia|]. repeat split; lia.
Qed.

(** X11: sending [n] bytes takes [n] bytes off the size of the send window,
    down to 0 and not below, as long as the count of bytes sent fits in 64
    bits. *)
Theorem AddBytesSent_consumes (n : ByteCount) (m : Machine CPM) :
  is_uint64 (bytesSent (self m)) -> is_uint64 (sendWindow (self m)) ->
  0 <= n -> bytesSent (self m) + n < modulus ->
  fst (SendWindowSize (after (AddBytesSent n) m)) = Z.max 0 (fst (SendWindowSize m) - n).
Proof.
  intros Hb Hs Hn Hfit. unfold is_uint64 in *.
  assert (Hsent : bytesSent (self (after (AddBytesSent n) m)) = bytesSent (self m) + n).
  { unfold after, AddBytesSent, assign. cbn. apply add64_exact. lia. }
  assert (Heff : effectiveSendWindow (self (after (AddBytesSent n) m))
                 = effectiveSendWindow (self m)) by reflexivity.
  assert (Hwin : sendWindow (self (after (AddBytesSent n) m)) = sendWindow (self m))
    by reflexivity.
  rewrite !SendWindowSize_value; unfold is_uint64; rewrite ?Hsent, ?Hwin, ?Heff; lia.
Qed.

(** *** The receive side *)

Lemma UpdateHighestReceived_eq (o : ByteCount) (m : Machine CPM) :
  UpdateHighestReceived o m =
  if o =? highestReceived (self m) then ((0, None), m)
  else if o >? highestReceived (self m) then
    ((sub64 o (highestReceived (self m)), None),
     {| self := set_highestReceived o (self m); world := world m |})
  else ((0, Some ErrReceivedSmallerByteOffset), m).
Proof.
  unfold UpdateHighestReceived, bind, ret, this, assign. cbv beta iota zeta.
  destruct (o =? highestReceived (self m)); [reflexivity|].
  now destruct (o >? highestReceived (self m)).
Qed.

Lemma UpdateHighestReceived_each_cons (o : ByteCount) (l : list ByteCount)
    (m : Machine CPM) :
  UpdateHighestReceived_each (o :: l) m =
  (fst (UpdateHighestReceived o m)
     :: fst (UpdateHighestReceived_each l (snd (UpdateHighestReceived o m))),
   snd (UpdateHighestReceived_each l (snd (UpdateHighestReceived o m)))).
Proof.
  cbn [UpdateHighestReceived_each]. destruct (UpdateHighestReceived o m) as [r m1].
  cbn [fst snd]. now destruct (UpdateHighestReceived_each l m1).
Qed.

(** One call: the increment returned is the advance of [highestReceived]. *)
Lemma UpdateHighestReceived_advance (o : ByteCount) (m : Machine CPM) :
  is_uint64 o -> is_uint64 (highestReceived (self m)) ->
  highestReceived (self (snd (UpdateHighestReceived o m)))
    = Z.max (highestReceived (self m)) o /\
  fst (fst (UpdateHighestReceived o m))
    = Z.max (highestReceived (self m)) o - highestReceived (self m).
Proof.
  intros Ho Hh. rewrite UpdateHighestReceived_eq. unfold is_uint64 in *.
  destruct (Z.eqb_spec o (highestReceived (self m))); [cbn [fst snd]; lia|].
  destruct (Z.gtb_spec o (highestReceived (self m))); cbn [fst snd self]; [|lia].
  cbn [highestReceived set_highestReceived].
  rewrite sub64_exact by (unfold is_uint64; lia). lia.
Qed.

Lemma UpdateHighestReceived_each_advance (offsets : list ByteCount) (m : Machine CPM) :
  Forall is_uint64 offsets -> is_uint64 (highestReceived (self m)) ->
  let rs := fst (UpdateHighestReceived_each offsets m) in
  let m' := snd (UpdateHighestReceived_each offsets m) in
  highestReceived (self m') = Z.max (highestReceived (self m)) (max_offset offsets) /\
  total (map fst rs) = highestReceived (self m') - highestReceived (self m) /\
  Forall (fun i => 0 <= i) (map fst rs).
Proof.
  cbv zeta. revert m. induction offsets as [|o l IH]; intros m Hall Hh.
  - cbn. unfold is_uint64 in Hh. repeat split; [lia|lia|constructor].
  - inversion Hall as [|? ? Ho Hl]; subst.
    rewrite UpdateHighestReceived_each_cons. cbn [fst snd map].
    destruct (UpdateHighestReceived_advance o m Ho Hh) as (Hh1 & Hr1).
    assert (Hrange1 : is_uint64 (highestReceived (self (snd (UpdateHighestReceived o m))))).
    { rewrite Hh1. unfold is_uint64 in *. lia. }
    destruct (IH _ Hl Hrange1) as (Hh' & Htotal & Hpos).
    rewrite Hh', Hh1. cbn [max_offset fold_right total]. fold (max_offset l).
    fold (total (map fst (fst (UpdateHighestReceived_each l
                                 (snd (UpdateHighestReceived o m)))))).
    rewrite Htotal, Hh', Hh1, Hr1. repeat split; [lia|lia|].
    constructor; [lia|exact Hpos].
Qed.

(** X12: after [UpdateHighestReceived] was called with a sequence of offsets,
    in any order, [highestReceived] is the largest of its former value and the
    offsets, and the increments returned add up to exactly the advance of
    [highestReceived]: no byte is counted twice and none is lost, whichever
    calls returned [ErrReceivedSmallerByteOffset]. *)
Theorem UpdateHighestReceived_each_total (offsets : list ByteCount) (m : Machine CPM) :
  Forall is_uint64 offsets -> is_uint64 (highestReceived (self m)) ->
  let rs := fst (UpdateHighestReceived_each offsets m) in
  let m' := snd (UpdateHighestReceived_each offsets m) in
  highestReceived (self m') = Z.max (highestReceived (self m)) (max_offset offsets) /\
  total (map fst rs) = highestReceived (self m') - highestReceived (self m).
Proof.
  intros Hall Hh.
  destruct (UpdateHighestReceived_each_advance offsets m Hall Hh) as (H1 & H2 & _).
  split; assumption.
Qed.

Lemma IncrementHighestReceived_each_total (increments : list ByteCount) (m : Machine CPM) :
  Forall (fun i => 0 <= i) increments ->
  0 <= highestReceived (self m) ->
  highestReceived (self m) + total increments < modulus ->
  highestReceived (self (IncrementHighestReceived_each increments m))
  = highestReceived (self m) + total increments.
Proof.
  revert m. induction increments as [|i l IH]; intros m Hall Hh Hfit.
  - cbn. lia.
  - inversion Hall as [|? ? Hi Hl]; subst. cbn [IncrementHighestReceived_each].
    cbn [total fold_right] in *. fold (total l) in *.
    assert (Hpos : 0 <= total l).
    { clear -Hl. induction Hl; cbn; [lia|]. fold (total l). lia. }
    assert (H1 : highestReceived (self (after (IncrementHighestReceived i) m))
                 = highestReceived (self m) + i).
    { unfold after, IncrementHighestReceived, assign. cbn. apply add64_exact. lia. }
    rewrite IH; rewrite ?H1; try assumption; lia.
Qed.

(** X13: the increments that [UpdateHighestReceived] returns on a stream's
    controller, passed one by one to [IncrementHighestReceived] on the
    connection's controller, advance the connection's [highestReceived] by
    exactly the advance of the stream's, as long as the connection's count
    fits in 64 bits. *)
Theorem IncrementHighestReceived_follows_stream (offsets : list ByteCount)
    (stream conn : Machine CPM) :
  Forall is_uint64 offsets ->
  is_uint64 (highestReceived (self stream)) ->
  0 <= highestReceived (self conn) ->
  let rs := fst (UpdateHighestReceived_each offsets stream) in
  let stream' := snd (UpdateHighestReceived_each offsets stream) in
  let conn' := IncrementHighestReceived_each (map fst rs) conn in
  highestReceived (self conn)
    + (highestReceived (self stream') - highestReceived (self stream)) < modulus ->
  highestReceived (self conn') - highestReceived (self conn)
  = highestReceived (self stream') - highestReceived (self stream).
Proof.
  intros Hall Hs Hc. cbv zeta.
  destruct (UpdateHighestReceived_each_advance offsets stream Hall Hs)
    as (_ & Htotal & Hpos).
  cbv zeta in Htotal, Hpos. intros Hfit.
  rewrite IncrementHighestReceived_each_total; rewrite ?Htotal; try assumption; lia.
Qed.

(** X14: reporting a count in two calls leaves the same machine as reporting
    the [uint64] sum in one, for the bytes sent, the bytes read and the
    increments of [highestReceived]. *)
Theorem counts_accumulate (a b : ByteCount) (m : Machine CPM) :
  after (AddBytesSent b) (after (AddBytesSent a) m) = after (AddBytesSent (add64 a b)) m /\
  after (AddBytesRead b) (after (AddBytesRead a) m) = after (AddBytesRead (add64 a b)) m /\
  after (IncrementHighestReceived b) (after (IncrementHighestReceived a) m)
  = after (IncrementHighestReceived (add64 a b)) m.
Proof.
  unfold after, AddBytesSent, AddBytesRead, IncrementHighestReceived, assign.
  cbn [snd self world set_bytesSent set_bytesRead set_highestReceived
       bytesSent bytesRead highestReceived streamID connectionParameters rttStats
       sendWindow lastWindowUpdateTime receiveWindow receiveWindowIncrement
       maxReceiveWindowIncrement].
  now rewrite !add64_assoc.
Qed.

(** *** The debug log *)

(** X15: [maybeAdjustWindowIncrement] writes one line to the debug log when
    it has increased the increment, and none otherwise: for the connection
    the new increment in kB, for a stream its identifier and the new
    increment in kB.  It leaves the RTT statistics as they are. *)
Theorem maybeAdjustWindowIncrement_log (m : Machine CPM) :
  let c := self m in
  let m' := after maybeAdjustWindowIncrement m in
  let increment' := receiveWindowIncrement (self m') in
  debugLog (world m') =
    (if receiveWindowIncrement c <? increment' then
       [if streamID c =? 0 then
          ("Increasing receive flow control window for the connection to %d kB"%string,
           [increment' / 1024])
        else
          ("Increasing receive flow control window increment for stream %d to %d kB"%string,
           [streamID c; increment' / 1024])]
     else []) ++ debugLog (world m) /\
  heap (world m') = heap (world m).
Proof.
  cbv zeta.
  unfold after, maybeAdjustWindowIncrement, bind, ret, this,
    rttStats_SmoothedRTT, time_Now, assign, utils_Debugf.
  destruct m as [c w]; cbn [self world].
  destruct (time.IsZero (lastWindowUpdateTime c)); cbn [snd self world];
    [now rewrite Z.ltb_irrefl|].
  destruct (congestion.SmoothedRTT (heap w (rttStats c)) =? 0); cbn [snd self world];
    [now rewrite Z.ltb_irrefl|].
  destruct (time.Sub (clock w (ticks w)) (lastWindowUpdateTime c)
            >=? time.mul 2 (congestion.SmoothedRTT (heap w (rttStats c))));
    cbn [snd self world]; [now rewrite Z.ltb_irrefl|].
  cbn [self receiveWindowIncrement set_receiveWindowIncrement streamID].
  destruct (receiveWindowIncrement c
            <? utils.MinByteCount (mul64 2 (receiveWindowIncrement c))
                                  (maxReceiveWindowIncrement c)) eqn:Hgrown;
    [destruct (streamID c =? 0)|];
    cbn [snd self world receiveWindowIncrement set_receiveWindowIncrement
         streamID debugLog heap];
    rewrite Hgrown; split; reflexivity.
Qed.

End Behaviour.

(** ** The properties on concrete controllers *)

(** Closing a goal between concrete numbers by evaluation. *)
Ltac by_evaluation :=
  vm_compute; repeat split; first [reflexivity | discriminate | intro; discriminate].

(** The scenario of the specification: a stream with the initial window 100
    and the maximal increment 1000 reads 60 bytes; 40 remain, less than 50, so
    an update is due; there was no update before, the increment stays 100 and
    the offset announced is 160. *)
Example MaybeUpdateWindow_scenario :
  let m := after (AddBytesRead 60) (fresh 1 100 1000 100 1000000000 1000000 0) in
  fst (MaybeUpdateWindow m) = (true, 160) /\
  receiveWindowIncrement (self (after MaybeUpdateWindow m)) = 100 /\
  lastWindowUpdateTime (self (after MaybeUpdateWindow m)) = 1000000000.
Proof. cbv zeta. repeat split; by_evaluation. Qed.

(** Three updates of the connection's controller, 1 ms apart with a smoothed
    RTT of 100 ms: the increment stays 1000 at the first, doubles to 2000 at
    the second and is clamped to the maximum 3000 at the third. *)
Example MaybeUpdateWindow_growth :
  let m1 := after MaybeUpdateWindow
              (after (AddBytesRead 600) (fresh 0 1000 3000 100 1000000000 1000000 100000000)) in
  let m2 := after MaybeUpdateWindow (after (AddBytesRead 600) m1) in
  let m3 := after MaybeUpdateWindow (after (AddBytesRead 1600) m2) in
  (receiveWindowIncrement (self m1), receiveWindow (self m1)) = (1000, 1600) /\
  (receiveWindowIncrement (self m2), receiveWindow (self m2)) = (2000, 3200) /\
  (receiveWindowIncrement (self m3), receiveWindow (self m3)) = (3000, 5800) /\
  debugLog (world m2) =
    [("Increasing receive flow control window for the connection to %d kB"%string, [1])].
Proof. cbv zeta. repeat split; by_evaluation. Qed.

(** C2 (the code does not do this): a stream with the window 100 has read 101
    bytes.  The remaining window [receiveWindow - bytesRead] that
    [MaybeUpdateWindow] computes is not clamped: it wraps around to
    [2^64 - 1], and no update is due.  [SendWindowSize] on the same controller
    with 101 bytes sent against the send window 100 clamps to 0. *)
Theorem MaybeUpdateWindow_remaining_wraps :
  let m := after (AddBytesRead 101) (fresh 1 100 1000 100 1000000000 1000000 0) in
  (receiveWindow (self m), bytesRead (self m), receiveWindowIncrement (self m))
    = (100, 101, 100) /\
  sub64 (receiveWindow (self m)) (bytesRead (self m)) = 2 ^ 64 - 1 /\
  MaybeUpdateWindow m = ((false, 0), m) /\
  fst (SendWindowSize (after (AddBytesSent 101) m)) = 0.
Proof. cbv zeta. repeat split; by_evaluation. Qed.

(** C3, as stated, fails, in three triggered updates.  A stream constructed
    with the initial window 1000 and the maximum 500 has the increment 1000
    after a first update; the second update, 1 ms later with a smoothed RTT of
    100 ms, sets it to [min(2000, 500) = 500]: the step decreases the
    increment.  With the initial window and the maximum [2^63], the product
    [2 * 2^63] wraps to 0 and the second update sets the increment to 0, not
    to [min(2^64, 2^63)].  With a smoothed RTT of [2^62] ns the product
    [2 * rtt] wraps to [-2^63]: the second update, 1 ms after the first,
    leaves the increment 1000 although 1 ms is less than [2 * rtt] and
    [min(2000, 3000) = 2000]. *)
Lemma maybeAdjustWindowIncrement_decreases :
  let m := after (AddBytesRead 600)
             (after MaybeUpdateWindow
                (after (AddBytesRead 600)
                   (fresh 1 1000 500 100 1000000000 1000000 100000000))) in
  let big := after (AddBytesRead (2 ^ 63))
               (after MaybeUpdateWindow
                  (after (AddBytesRead (2 ^ 62 + 1))
                     (fresh 1 (2 ^ 63) (2 ^ 63) 100 1000000000 1000000 100000000))) in
  let slow := after (AddBytesRead 600)
                (after MaybeUpdateWindow
                   (after (AddBytesRead 600)
                      (fresh 0 1000 3000 100 1000000000 1000000 (2 ^ 62)))) in
  (fst (fst (MaybeUpdateWindow m)) = true /\
   receiveWindowIncrement (self m) = 1000 /\
   receiveWindowIncrement (self (after maybeAdjustWindowIncrement m)) = 500 /\
   receiveWindowIncrement (self (after MaybeUpdateWindow m)) = 500) /\
  (fst (fst (MaybeUpdateWindow big)) = true /\
   receiveWindowIncrement (self big) = 2 ^ 63 /\
   maxReceiveWindowIncrement (self big) = 2 ^ 63 /\
   receiveWindowIncrement (self (after maybeAdjustWindowIncrement big)) = 0 /\
   receiveWindowIncrement (self (after MaybeUpdateWindow big)) = 0) /\
  (fst (fst (MaybeUpdateWindow slow)) = true /\
   lastWindowUpdateTime (self slow) = 1000000000 /\
   congestion.SmoothedRTT (heap (world slow) (rttStats (self slow))) = 2 ^ 62 /\
   clock (world slow) (ticks (world slow)) - lastWindowUpdateTime (self slow) = 1000000 /\
   (receiveWindowIncrement (self slow), maxReceiveWindowIncrement (self slow))
     = (1000, 3000) /\
   receiveWindowIncrement (self (after maybeAdjustWindowIncrement slow)) = 1000 /\
   receiveWindowIncrement (self (after MaybeUpdateWindow slow)) = 1000).
Proof. cbv zeta. repeat split; by_evaluation. Qed.

Lemma maybeAdjustWindowIncrement_increment_witness :
  let m := after (AddBytesRead 600)
             (after MaybeUpdateWindow
                (after (AddBytesRead 600)
                   (fresh 0 1000 3000 100 1000000000 1000000 100000000))) in
  (fst (fst (MaybeUpdateWindow m)) = true /\
   receiveWindowIncrement (self (after MaybeUpdateWindow m)) = 2000) /\
  receiveWindowIncrement (self (after maybeAdjustWindowIncrement m)) = Z.min 2000 3000 /\
  receiveWindowIncrement (self m)
  <= receiveWindowIncrement (self (after maybeAdjustWindowIncrement m)).
Proof.
  cbv zeta. split; [by_evaluation|].
  destruct (maybeAdjustWindowIncrement_increment
              (after (AddBytesRead 600)
                 (after MaybeUpdateWindow
                    (after (AddBytesRead 600)
                       (fresh 0 1000 3000 100 1000000000 1000000 100000000)))))
    as (_ & _ & Hrtt & Hgrow).
  destruct Hrtt as (_ & Hmin); [by_evaluation|].
  split; [apply Hmin; by_evaluation|apply Hgrow; by_evaluation].
Defined.

(** C1, as stated, fails.  A stream with the initial window and the maximum
    [2^64 - 1] has read [2^63 + 1] bytes, within its window: the update is due
    and sets [receiveWindow] to [2^63], while [bytesRead + I'] is
    [2^64 + 2^63]: the sum wraps.  And a stream with the window 100 has read
    101 bytes: [receiveWindow - bytesRead] is [-1], below 50, and the call
    returns false. *)
Lemma MaybeUpdateWindow_sum_wraps :
  let full := after (AddBytesRead (2 ^ 63 + 1))
                (fresh 1 (2 ^ 64 - 1) (2 ^ 64 - 1) 100 1000000000 1000000 0) in
  let past := after (AddBytesRead 101) (fresh 1 100 1000 100 1000000000 1000000 0) in
  (fst (MaybeUpdateWindow full) = (true, 2 ^ 63) /\
   receiveWindow (self (after MaybeUpdateWindow full)) = 2 ^ 63 /\
   bytesRead (self full)
   + receiveWindowIncrement (self (after maybeAdjustWindowIncrement full))
   = 2 ^ 64 + 2 ^ 63) /\
  (receiveWindow (self past) - bytesRead (self past) = -1 /\
   receiveWindowIncrement (self past) / 2 = 50 /\
   fst (MaybeUpdateWindow past) = (false, 0)).
Proof. cbv zeta. repeat split; by_evaluation. Qed.

Lemma MaybeUpdateWindow_within_window_witness :
  let m := after (AddBytesRead 60) (fresh 1 100 1000 100 1000000000 1000000 0) in
  fst (MaybeUpdateWindow m) = (true, 160) /\
  (fst (fst (MaybeUpdateWindow m)) = true <->
   receiveWindow (self m) - bytesRead (self m) < receiveWindowIncrement (self m) / 2) /\
  receiveWindow (self (after MaybeUpdateWindow m))
  = bytesRead (self m)
    + receiveWindowIncrement (self (after maybeAdjustWindowIncrement m)).
Proof.
  cbv zeta. split; [by_evaluation|].
  destruct (MaybeUpdateWindow_within_window
              (after (AddBytesRead 60) (fresh 1 100 1000 100 1000000000 1000000 0)))
    as (Hiff & Hdue & _); [by_evaluation|by_evaluation|].
  split; [exact Hiff|].
  destruct Hdue as (_ & Hexact & _); [by_evaluation|].
  apply Hexact. by_evaluation.
Defined.

(** C4, as stated, fails: a stream constructed from parameters with the
    initial window 1000 and the maximum 500 has the increment 1000, above its
    maximum 500, immediately after construction. *)
Lemma increment_above_max_after_construction :
  let c := newFlowController 1 (params 1000 500 100) 0 in
  receiveWindowIncrement c = 1000 /\ maxReceiveWindowIncrement c = 500 /\
  maxReceiveWindowIncrement c < receiveWindowIncrement c.
Proof. cbv zeta. repeat split; by_evaluation. Qed.

Lemma increment_within_max_witness :
  receiveWindowIncrement (run two_updates (newFlowController 1 (params 1000 3000 100) 0))
    = 2000 /\
  receiveWindowIncrement (run two_updates (newFlowController 1 (params 1000 3000 100) 0))
  <= maxReceiveWindowIncrement (run two_updates (newFlowController 1 (params 1000 3000 100) 0)).
Proof.
  split; [by_evaluation|].
  apply (increment_within_max 1 (params 1000 3000 100) 0 two_updates).
  by_evaluation.
Defined.

Lemma UpdateSendWindow_maximum_witness :
  let m0 := fresh 1 1000 3000 100 1000000000 1000000 0 in
  Forall is_uint64 ([5; 3] ++ [9]) /\
  UpdateSendWindow_each ([5; 3] ++ [9]) m0 =
    (fst (UpdateSendWindow_each [5; 3] m0)
       ++ [fst (UpdateSendWindow 9 (snd (UpdateSendWindow_each [5; 3] m0)))],
     snd (UpdateSendWindow 9 (snd (UpdateSendWindow_each [5; 3] m0)))) /\
  fst (UpdateSendWindow_each ([5; 3] ++ [9]) m0) = [true; false; true].
Proof.
  cbv zeta. split; [cbn [app]; repeat constructor; by_evaluation|].
  split; [|by_evaluation].
  apply (UpdateSendWindow_maximum 1 (params 1000 3000 100) 0
           (world_of 1000000000 1000000 0) [5; 3] 9).
  cbn [app]; repeat constructor; by_evaluation.
Defined.

Lemma UpdateHighestReceived_trichotomy_witness :
  let m := after (UpdateHighestReceived 20) (fresh 1 1000 3000 100 1000000000 1000000 0) in
  fst (UpdateHighestReceived 50 m) = (50 - highestReceived (self m), None) /\
  fst (UpdateHighestReceived 50 m) = (30, None).
Proof.
  cbv zeta. split; [|by_evaluation].
  destruct (UpdateHighestReceived_trichotomy 50
              (after (UpdateHighestReceived 20)
                 (fresh 1 1000 3000 100 1000000000 1000000 0)))
    as (_ & Hgt & _); [split; by_evaluation|split; by_evaluation|].
  rewrite Hgt; [reflexivity|by_evaluation].
Defined.

Lemma SendWindowSize_clamped_witness :
  let m := after (AddBytesSent 150) (fresh 1 1000 3000 100 1000000000 1000000 0) in
  SendWindowSize m = (Z.max 0 (effectiveSendWindow (self m) - bytesSent (self m)), m) /\
  fst (SendWindowSize m) = 0 /\ fst (SendWindowOffset m) = 100.
Proof.
  cbv zeta. split; [|split; by_evaluation].
  apply (SendWindowSize_clamped
           (after (AddBytesSent 150) (fresh 1 1000 3000 100 1000000000 1000000 0)));
    split; by_evaluation.
Defined.

Lemma CheckFlowControlViolation_iff_witness :
  let m0 := fresh 0 1000 3000 100 1000000000 1000000 0 in
  fst (CheckFlowControlViolation (after (IncrementHighestReceived 1001) m0)) = true /\
  fst (CheckFlowControlViolation (after (IncrementHighestReceived 1000) m0)) = false.
Proof.
  cbv zeta.
  apply (CheckFlowControlViolation_iff
           (fresh 0 1000 3000 100 1000000000 1000000 0)
           0 (params 1000 3000 100) 0 (world_of 1000000000 1000000 0)).
  by_evaluation.
Defined.

(** C9, as stated, fails: a call can decrease the receive window.  For a
    stream constructed with the initial window 1000 and the maximum 10, the
    second update, 1 ms after the first with a smoothed RTT of 100 ms, shrinks
    the increment to 10 and moves the window from 1600 back to 1210.  And for
    a stream with the initial window and the maximum [2^64 - 1] that has read
    [2^63 + 1] bytes, the sum [bytesRead + receiveWindowIncrement] wraps and
    the update moves the window from [2^64 - 1] back to [2^63]. *)
Lemma receiveWindow_decreases :
  let c := run (firstn 3 two_updates) (newFlowController 1 (params 1000 10 100) 0) in
  let c' := step (world_of 1001000000 1000000 100000000) CallMaybeUpdateWindow c in
  let d := run [(world_of 1000000000 1000000 0, CallAddBytesRead (2 ^ 63 + 1))]
             (newFlowController 1 (params (2 ^ 64 - 1) (2 ^ 64 - 1) 100) 0) in
  let d' := step (world_of 1000000000 1000000 0) CallMaybeUpdateWindow d in
  (receiveWindow c = 1600 /\ receiveWindow c' = 1210) /\
  (receiveWindow d = 2 ^ 64 - 1 /\ receiveWindow d' = 2 ^ 63).
Proof. cbv zeta. repeat split; by_evaluation. Qed.

Lemma receiveWindow_non_decreasing_witness :
  let c := run (firstn 3 two_updates) (newFlowController 1 (params 1000 3000 100) 0) in
  let c' := step (world_of 1001000000 1000000 100000000) CallMaybeUpdateWindow c in
  (receiveWindow c = 1600 /\ receiveWindow c' = 3200) /\
  receiveWindow c <= receiveWindow c'.
Proof.
  cbv zeta. split; [split; by_evaluation|].
  apply (receiveWindow_non_decreasing 1 (params 1000 3000 100) 0
           (firstn 3 two_updates) (world_of 1001000000 1000000 100000000)
           CallMaybeUpdateWindow); by_evaluation.
Defined.

Lemma MaybeUpdateWindow_not_due_witness :
  let m := after (AddBytesRead 40) (fresh 1 100 1000 100 1000000000 1000000 0) in
  MaybeUpdateWindow m = ((false, 0), m).
Proof.
  cbv zeta. apply MaybeUpdateWindow_not_due. by_evaluation.
Defined.

(** *** The further properties on concrete controllers *)

Lemma MaybeUpdateWindow_first_update_witness :
  let m := after (AddBytesRead 60) (fresh 1 100 1000 100 1000000000 1000000 0) in
  fst (fst (MaybeUpdateWindow m)) = true /\
  snd (fst (MaybeUpdateWindow m)) = add64 60 (initialWindow 1 (params 100 1000 100)).
Proof.
  cbv zeta.
  destruct (MaybeUpdateWindow_first_update 1 (params 100 1000 100) 0
              (world_of 1000000000 1000000 0) 60) as (Hdue & Hoffset & _);
    [by_evaluation|].
  split; [by_evaluation|]. apply Hoffset. by_evaluation.
Defined.

Lemma MaybeUpdateWindow_twice_witness :
  let m := after (AddBytesRead 60) (fresh 1 100 1000 100 1000000000 1000000 0) in
  let m1 := {| self := self (after MaybeUpdateWindow m);
               world := world_of 1000001000 1000000 100000000 |} in
  fst (MaybeUpdateWindow m) = (true, 160) /\ MaybeUpdateWindow m1 = ((false, 0), m1).
Proof.
  cbv zeta. split; [by_evaluation|].
  apply (MaybeUpdateWindow_twice
           (after (AddBytesRead 60) (fresh 1 100 1000 100 1000000000 1000000 0))).
  by_evaluation.
Defined.

Lemma MaybeUpdateWindow_announces_more_witness :
  let c := run (firstn 3 two_updates) (newFlowController 1 (params 1000 3000 100) 0) in
  let m := {| self := c; world := world_of 1001000000 1000000 100000000 |} in
  (receiveWindow c, fst (MaybeUpdateWindow m)) = (1600, (true, 3200)) /\
  receiveWindow c < snd (fst (MaybeUpdateWindow m)).
Proof.
  cbv zeta. split; [by_evaluation|].
  apply (MaybeUpdateWindow_announces_more 1 (params 1000 3000 100) 0
           (firstn 3 two_updates) (world_of 1001000000 1000000 100000000));
    by_evaluation.
Defined.

Lemma run_increment_doubles_witness :
  let c := run two_updates (newFlowController 1 (params 1000 3000 100) 0) in
  receiveWindowIncrement c = 2000 /\
  exists k : nat,
    receiveWindowIncrement c =
    Z.min (initialWindow 1 (params 1000 3000 100) * 2 ^ Z.of_nat k)
          (maxWindowIncrement 1 (params 1000 3000 100)).
Proof.
  cbv zeta. split; [by_evaluation|].
  apply (run_increment_doubles 1 (params 1000 3000 100) 0 two_updates); by_evaluation.
Defined.

Lemma step_keeps_no_violation_witness :
  let c := run (firstn 3 two_updates) (newFlowController 1 (params 1000 3000 100) 0) in
  let w := world_of 1001000000 1000000 100000000 in
  fst (CheckFlowControlViolation {| self := c; world := w |}) = false /\
  fst (CheckFlowControlViolation
         {| self := step w CallMaybeUpdateWindow c; world := w |}) = false.
Proof.
  cbv zeta. split; [by_evaluation|].
  apply (step_keeps_no_violation 1 (params 1000 3000 100) 0 (firstn 3 two_updates)
           (world_of 1001000000 1000000 100000000)
           (world_of 1001000000 1000000 100000000) CallMaybeUpdateWindow);
    try (intros n; discriminate); by_evaluation.
Defined.

Lemma UpdateSendWindow_offset_witness :
  let m := after (UpdateSendWindow 200) (fresh 1 1000 3000 100 1000000000 1000000 0) in
  fst (SendWindowOffset (after (UpdateSendWindow 500) m)) = 500 /\
  fst (SendWindowSize m) <= fst (SendWindowSize (after (UpdateSendWindow 500) m)).
Proof.
  cbv zeta.
  destruct (UpdateSendWindow_offset 500
              (after (UpdateSendWindow 200) (fresh 1 1000 3000 100 1000000000 1000000 0)))
    as (Htrue & _ & Hmono); [by_evaluation|by_evaluation|by_evaluation|].
  split; [apply Htrue; by_evaluation|apply Hmono; by_evaluation].
Defined.

Lemma UpdateSendWindow_below_initial_witness :
  let m := fresh 1 1000 3000 100 1000000000 1000000 0 in
  (fst (SendWindowOffset m), fst (SendWindowOffset (after (UpdateSendWindow 50) m)))
    = (100, 50) /\
  fst (SendWindowOffset (after (UpdateSendWindow 50) m)) < fst (SendWindowOffset m).
Proof.
  cbv zeta. split; [by_evaluation|].
  apply (UpdateSendWindow_below_initial 50 (fresh 1 1000 3000 100 1000000000 1000000 0));
    by_evaluation.
Defined.

Lemma AddBytesSent_consumes_witness :
  let m := fresh 1 1000 3000 100 1000000000 1000000 0 in
  fst (SendWindowSize (after (AddBytesSent 30) m)) = Z.max 0 (fst (SendWindowSize m) - 30) /\
  fst (SendWindowSize (after (AddBytesSent 30) m)) = 70.
Proof.
  cbv zeta. split; [|by_evaluation].
  apply (AddBytesSent_consumes 30 (fresh 1 1000 3000 100 1000000000 1000000 0));
    by_evaluation.
Defined.

Lemma UpdateHighestReceived_each_total_witness :
  let m := fresh 1 1000 3000 100 1000000000 1000000 0 in
  fst (UpdateHighestReceived_each reordered_offsets m)
    = [(10, None); (0, Some ErrReceivedSmallerByteOffset); (20, None); (0, None);
       (0, Some ErrReceivedSmallerByteOffset)] /\
  total (map fst (fst (UpdateHighestReceived_each reordered_offsets m)))
    = highestReceived (self (snd (UpdateHighestReceived_each reordered_offsets m)))
      - highestReceived (self m).
Proof.
  cbv zeta. split; [by_evaluation|].
  apply (UpdateHighestReceived_each_total reordered_offsets
           (fresh 1 1000 3000 100 1000000000 1000000 0));
    [repeat constructor; by_evaluation|by_evaluation].
Defined.

Lemma IncrementHighestReceived_follows_stream_witness :
  let stream := fresh 1 1000 3000 100 1000000000 1000000 0 in
  let conn := fresh 0 1000 3000 100 1000000000 1000000 0 in
  let rs := fst (UpdateHighestReceived_each reordered_offsets stream) in
  highestReceived (self (IncrementHighestReceived_each (map fst rs) conn)) = 30 /\
  highestReceived (self (IncrementHighestReceived_each (map fst rs) conn))
    - highestReceived (self conn)
  = highestReceived (self (snd (UpdateHighestReceived_each reordered_offsets stream)))
    - highestReceived (self stream).
Proof.
  cbv zeta. split; [by_evaluation|].
  apply (IncrementHighestReceived_follows_stream reordered_offsets
           (fresh 1 1000 3000 100 1000000000 1000000 0)
           (fresh 0 1000 3000 100 1000000000 1000000 0));
    [repeat constructor; by_evaluation|by_evaluation|by_evaluation|by_evaluation].
Defined.

Lemma MaybeUpdateWindow_past_window_witness :
  let m := after (AddBytesRead 5000)
             (after MaybeUpdateWindow
                (after (AddBytesRead 600)
                   (fresh 0 1000 3000 100 1000000000 1000000 100000000))) in
  (receiveWindow (self m), bytesRead (self m)) = (1600, 5600) /\
  MaybeUpdateWindow m = ((false, 0), m).
Proof.
  cbv zeta. split; [by_evaluation|].
  apply MaybeUpdateWindow_past_window; by_evaluation.
Defined.

End flowcontrol.
